(** * VideoCall: a shallow embedding of [src/webrtc.jsx]

    The component keeps four references ([pcRef], [localStreamRef],
    [localVideoRef], [remoteVideoRef]) and reacts to button clicks, socket
    messages and callbacks of the browser objects it created.  The browser
    objects (peer connections, media tracks) live in two stores indexed by
    allocation order, so that an engine which is no longer referenced by
    [pcRef] is still there, with its callbacks, exactly as in the browser.

    [step] runs a handler to completion before the next event is taken.  The
    one suspension point at which another click can overtake a handler and
    change what it does, the [await] of the capture in [startCamera], is
    modelled on its own: [startCall_until_await] and [startCall_after_await]
    are the two halves of [startCall] around it.

    The connection engine and the capture devices are the browser's.  An
    engine is modelled by what the component can observe or cause: whether it
    is closed, the connection state last reported, its senders, the two
    descriptions last set and the candidates handed to it; its methods
    reject once it is closed and otherwise record their argument (what the
    engine itself would refuse for the state of a negotiation is not
    modelled).  A capture request allocates new tracks when granted and
    rejects otherwise. *)

From stdpp Require Import base option list.

(** ** Browser objects *)

Inductive track_kind := audio | video.

#[global] Instance track_kind_eq_dec : EqDecision track_kind.
Proof. solve_decision. Defined.

(** Which capture call produced a track. *)
Inductive capture := UserMedia | DisplayMedia.

Inductive ready_state := live | ended.

Record MediaStreamTrack := mkTrack {
  kind : track_kind;
  enabled : bool;
  readyState : ready_state;
  origin : capture;
  onended : bool  (* [true] once [screenTrack.onended = () => stopScreenShare()] ran *)
}.

(** A [MediaStream] is never mutated by the component: it is the list of the
    identities of its tracks, in [getTracks()] order. *)
Abbreviation MediaStream := (list nat).

Inductive sdp_type := sdp_offer | sdp_answer.

Record RTCSessionDescription := mkSdp {
  sdp_kind : sdp_type;
  sdp_token : nat;        (* which engine (or which remote payload) it stands for *)
  sdp_iceRestart : bool
}.

Inductive connection_state :=
  cs_new | cs_connecting | cs_connected | cs_disconnected | cs_failed | cs_closed.

#[global] Instance connection_state_eq_dec : EqDecision connection_state.
Proof. solve_decision. Defined.

Record RTCPeerConnection := mkPc {
  isClosed : bool;
  connectionState : connection_state;
  senders : list (option nat);                     (* [getSenders()], each with its [track] *)
  localDescription : option RTCSessionDescription;
  remoteDescription : option RTCSessionDescription;
  candidates : list nat                            (* arguments of [addIceCandidate] *)
}.

(** What a video element shows. *)
Inductive src_object := LocalStream (s : MediaStream) | RemoteStream (n : nat).

Record HTMLVideoElement := mkVideo { srcObject : option src_object }.

(** Messages of the signaling channel, both directions. *)
Inductive message :=
  | offer (d : RTCSessionDescription)
  | answer (d : RTCSessionDescription)
  | ice_candidate (c : nat)
  | reconnect_offer (d : RTCSessionDescription)
  | reconnect_answer (d : RTCSessionDescription)
  | call_ended.

Record constraints := mkConstraints { want_video : bool; want_audio : bool }.

(** ** The world: the component's refs, the browser stores, the effect logs *)

Record World := mkWorld {
  pcs : list RTCPeerConnection;
  tracks : list MediaStreamTrack;
  pcRef : option nat;
  localStreamRef : option MediaStream;
  localVideoRef : option HTMLVideoElement;   (* [None]: element not mounted *)
  remoteVideoRef : option HTMLVideoElement;
  emitted : list message;                    (* [socket.emit], oldest first *)
  mediaGranted : bool;                       (* will the next capture request be granted *)
  requests : list capture                    (* capture requests made, oldest first *)
}.

Definition set_pcs (f : list RTCPeerConnection → list RTCPeerConnection) (w : World) : World :=
  mkWorld (f (pcs w)) (tracks w) (pcRef w) (localStreamRef w) (localVideoRef w)
          (remoteVideoRef w) (emitted w) (mediaGranted w) (requests w).

Definition set_tracks (f : list MediaStreamTrack → list MediaStreamTrack) (w : World) : World :=
  mkWorld (pcs w) (f (tracks w)) (pcRef w) (localStreamRef w) (localVideoRef w)
          (remoteVideoRef w) (emitted w) (mediaGranted w) (requests w).

Definition set_pcRef (p : option nat) (w : World) : World :=
  mkWorld (pcs w) (tracks w) p (localStreamRef w) (localVideoRef w)
          (remoteVideoRef w) (emitted w) (mediaGranted w) (requests w).

Definition set_localStreamRef (s : option MediaStream) (w : World) : World :=
  mkWorld (pcs w) (tracks w) (pcRef w) s (localVideoRef w)
          (remoteVideoRef w) (emitted w) (mediaGranted w) (requests w).

Definition set_localVideoRef (v : option HTMLVideoElement) (w : World) : World :=
  mkWorld (pcs w) (tracks w) (pcRef w) (localStreamRef w) v
          (remoteVideoRef w) (emitted w) (mediaGranted w) (requests w).

Definition set_remoteVideoRef (v : option HTMLVideoElement) (w : World) : World :=
  mkWorld (pcs w) (tracks w) (pcRef w) (localStreamRef w) (localVideoRef w)
          v (emitted w) (mediaGranted w) (requests w).

Definition set_emitted (f : list message → list message) (w : World) : World :=
  mkWorld (pcs w) (tracks w) (pcRef w) (localStreamRef w) (localVideoRef w)
          (remoteVideoRef w) (f (emitted w)) (mediaGranted w) (requests w).

Definition set_mediaGranted (b : bool) (w : World) : World :=
  mkWorld (pcs w) (tracks w) (pcRef w) (localStreamRef w) (localVideoRef w)
          (remoteVideoRef w) (emitted w) b (requests w).

Definition set_requests (f : list capture → list capture) (w : World) : World :=
  mkWorld (pcs w) (tracks w) (pcRef w) (localStreamRef w) (localVideoRef w)
          (remoteVideoRef w) (emitted w) (mediaGranted w) (f (requests w)).

(** ** Handlers: state passing with exceptions

    A handler either completes or throws (a rejected promise nobody catches);
    what it wrote before throwing stays written. *)

Inductive result (A : Type) := Ok (a : A) | Throw.
Arguments Ok {A} a.
Arguments Throw {A}.

Definition M (A : Type) : Type := World → result A * World.

Definition ret {A} (a : A) : M A := λ w, (Ok a, w).

Definition bind {A B} (m : M A) (k : A → M B) : M B :=
  λ w, match m w with
       | (Ok a, w') => k a w'
       | (Throw, w') => (Throw, w')
       end.

Definition throw {A} : M A := λ w, (Throw, w).
Definition gets {A} (f : World → A) : M A := λ w, (Ok (f w), w).
Definition modify (f : World → World) : M unit := λ w, (Ok tt, f w).

Declare Scope handler_scope.
Delimit Scope handler_scope with handler.
Notation "'let*' x ':=' m 'in' k" := (bind m (λ x, k))
  (at level 10, x name, m at level 100, k at level 200) : handler_scope.
Notation "m ';;;' k" := (bind m (λ _, k))
  (at level 100, k at level 200, right associativity) : handler_scope.
Open Scope handler_scope.

(** [xs.forEach(f)] *)
Fixpoint forEach {A} (xs : list A) (f : A → M unit) : M unit :=
  match xs with
  | [] => ret tt
  | x :: xs' => f x ;;; forEach xs' f
  end.

(** [if (c) body] *)
Definition when (c : bool) (body : M unit) : M unit :=
  if c then body else ret tt.

(** Final state of a handler, whether it completed or threw. *)
Definition exec {A} (m : M A) (w : World) : World := snd (m w).

(** ** The browser's capabilities, as the component uses them *)

Definition fresh_track (k : track_kind) (o : capture) : MediaStreamTrack :=
  mkTrack k true live o false.

(** Tracks a granted capture request delivers: audio first, then video. *)
Definition captured (o : capture) (c : constraints) : list MediaStreamTrack :=
  (if want_audio c then [fresh_track audio o] else []) ++
  (if want_video c then [fresh_track video o] else []).

(** [navigator.mediaDevices.getUserMedia] / [getDisplayMedia]: the request is
    logged; when granted, new tracks are allocated and their stream returned,
    otherwise the promise rejects. *)
Definition capture_media (o : capture) (c : constraints) : M MediaStream :=
  modify (set_requests (λ l, l ++ [o])) ;;;
  let* granted := gets mediaGranted in
  if granted : bool then
    let* n := gets (λ w, length (tracks w)) in
    modify (set_tracks (λ l, l ++ captured o c)) ;;;
    ret (seq n (length (captured o c)))
  else throw.

Definition getUserMedia : constraints → M MediaStream := capture_media UserMedia.
Definition getDisplayMedia : constraints → M MediaStream := capture_media DisplayMedia.

Definition track_has_kind (w : World) (k : track_kind) (t : nat) : bool :=
  match tracks w !! t with
  | Some tr => bool_decide (kind tr = k)
  | None => false
  end.

(** [stream.getAudioTracks()] / [stream.getVideoTracks()] *)
Definition getTracksOfKind (w : World) (k : track_kind) (s : MediaStream) : list nat :=
  filter (λ t, track_has_kind w k t = true) s.

(** [stream.getVideoTracks()[0]]: [None] stands for [undefined]. *)
Definition first_video_track (s : MediaStream) : M (option nat) :=
  gets (λ w, head (getTracksOfKind w video s)).

(** [localStreamRef.current?.getAudioTracks()[0]], and the same for video. *)
Definition held_track (k : track_kind) (w : World) : option nat :=
  s ← localStreamRef w; head (getTracksOfKind w k s).

Definition update_track (t : nat) (f : MediaStreamTrack → MediaStreamTrack) : M unit :=
  modify (set_tracks (alter f t)).

Definition stopped (tr : MediaStreamTrack) : MediaStreamTrack :=
  mkTrack (kind tr) (enabled tr) ended (origin tr) (onended tr).

Definition flipped (tr : MediaStreamTrack) : MediaStreamTrack :=
  mkTrack (kind tr) (negb (enabled tr)) (readyState tr) (origin tr) (onended tr).

Definition with_onended (tr : MediaStreamTrack) : MediaStreamTrack :=
  mkTrack (kind tr) (enabled tr) (readyState tr) (origin tr) true.

(** [track.stop()] *)
Definition track_stop (t : nat) : M unit := update_track t stopped.

(** [track.enabled = !track.enabled] *)
Definition track_flip_enabled (t : nat) : M unit := update_track t flipped.

(** [screenTrack.onended = () => { stopScreenShare(); }] *)
Definition track_set_onended (t : nat) : M unit := update_track t with_onended.

Definition new_pc : RTCPeerConnection := mkPc false cs_new [] None None [].

(** [new RTCPeerConnection(...)] *)
Definition new_RTCPeerConnection : M nat :=
  let* p := gets (λ w, length (pcs w)) in
  modify (set_pcs (λ l, l ++ [new_pc])) ;;;
  ret p.

(** A method of engine [p] that rejects once the engine is closed. *)
Definition pc_method (p : nat) (f : RTCPeerConnection → RTCPeerConnection) : M unit :=
  let* e := gets (λ w, pcs w !! p) in
  match e with
  | Some e => if isClosed e then throw else modify (set_pcs (alter f p))
  | None => throw
  end.

Definition pc_addTrack (p t : nat) : M unit :=
  pc_method p (λ e, mkPc (isClosed e) (connectionState e) (senders e ++ [Some t])
                         (localDescription e) (remoteDescription e) (candidates e)).

Definition pc_createOffer (p : nat) (iceRestart : bool) : M RTCSessionDescription :=
  pc_method p id ;;; ret (mkSdp sdp_offer p iceRestart).

Definition pc_createAnswer (p : nat) : M RTCSessionDescription :=
  pc_method p id ;;; ret (mkSdp sdp_answer p false).

Definition pc_setLocalDescription (p : nat) (d : RTCSessionDescription) : M unit :=
  pc_method p (λ e, mkPc (isClosed e) (connectionState e) (senders e)
                         (Some d) (remoteDescription e) (candidates e)).

Definition pc_setRemoteDescription (p : nat) (d : RTCSessionDescription) : M unit :=
  pc_method p (λ e, mkPc (isClosed e) (connectionState e) (senders e)
                         (localDescription e) (Some d) (candidates e)).

Definition pc_addIceCandidate (p : nat) (c : nat) : M unit :=
  pc_method p (λ e, mkPc (isClosed e) (connectionState e) (senders e)
                         (localDescription e) (remoteDescription e) (candidates e ++ [c])).

Definition closed_pc (e : RTCPeerConnection) : RTCPeerConnection :=
  mkPc true cs_closed (senders e) (localDescription e) (remoteDescription e) (candidates e).

(** [pc.close()]: never throws, and closing twice changes nothing more. *)
Definition pc_close (p : nat) : M unit :=
  modify (set_pcs (alter closed_pc p)).

Definition sender_has_kind (w : World) (k : track_kind) (s : option nat) : bool :=
  match s with
  | Some t => track_has_kind w k t
  | None => false
  end.

(** Index of the first sender satisfying [f]: [getSenders().find(f)]. *)
Fixpoint find_index {A} (f : A → bool) (l : list A) : option nat :=
  match l with
  | [] => None
  | x :: l' => if f x then Some 0 else S <$> find_index f l'
  end.

(** [pcRef.current?.getSenders().find((s) => s.track?.kind === "video")] *)
Definition find_video_sender : M (option (nat * nat)) :=
  gets (λ w, p ← pcRef w; e ← pcs w !! p;
             i ← find_index (sender_has_kind w video) (senders e); Some (p, i)).

(** [sender?.replaceTrack(t)], where [t] may be [undefined] *)
Definition replaceTrack (sender : option (nat * nat)) (t : option nat) : M unit :=
  match sender with
  | Some (p, i) =>
      modify (set_pcs (alter (λ e, mkPc (isClosed e) (connectionState e)
                                        (<[i := t]> (senders e))
                                        (localDescription e) (remoteDescription e)
                                        (candidates e)) p))
  | None => ret tt
  end.

(** [if (ref.current) ref.current.srcObject = x] *)
Definition show (x : option src_object) (v : option HTMLVideoElement) : option HTMLVideoElement :=
  match v with
  | Some _ => Some (mkVideo x)
  | None => None
  end.

Definition socket_emit (m : message) : M unit :=
  modify (set_emitted (λ l, l ++ [m])).

(** ** The component *)

(** [pcRef.current?.method(...)] *)
Definition with_pcRef (f : nat → M unit) : M unit :=
  let* cur := gets pcRef in
  match cur with
  | Some p => f p
  | None => ret tt
  end.

(** [pcRef.current!] followed by a method call: a [null] there is a TypeError. *)
Definition pcRef_current : M nat :=
  let* cur := gets pcRef in
  match cur with
  | Some p => ret p
  | None => throw
  end.

Definition show_local (x : option src_object) : M unit :=
  modify (λ w, set_localVideoRef (show x (localVideoRef w)) w).

Definition show_remote (x : option src_object) : M unit :=
  modify (λ w, set_remoteVideoRef (show x (remoteVideoRef w)) w).

Definition startCamera : M unit :=
  let* cur := gets localStreamRef in
  match cur with
  | Some _ => ret tt   (* already started *)
  | None =>
      let* stream := getUserMedia (mkConstraints true true) in
      modify (set_localStreamRef (Some stream)) ;;;
      show_local (Some (LocalStream stream))
  end.

(** The three callbacks installed on the new engine are [ontrack],
    [onicecandidate] and [onconnectionstatechange] below. *)
Definition createPeerConnection : M unit :=
  let* pc := new_RTCPeerConnection in
  let* stream := gets localStreamRef in
  forEach (default [] stream) (λ track, pc_addTrack pc track) ;;;
  modify (set_pcRef (Some pc)).

Definition startCall : M unit :=
  startCamera ;;;
  createPeerConnection ;;;
  let* pc := pcRef_current in
  let* o := pc_createOffer pc false in
  pc_setLocalDescription pc o ;;;
  socket_emit (offer o).

Definition toggleEnabled (k : track_kind) : M unit :=
  let* track := gets (held_track k) in
  match track with
  | Some t => track_flip_enabled t
  | None => ret tt
  end.

Definition toggleAudio : M unit := toggleEnabled audio.
Definition toggleVideo : M unit := toggleEnabled video.

Definition stopScreenShare : M unit :=
  let* cameraStream := getUserMedia (mkConstraints true true) in
  let* cameraTrack := first_video_track cameraStream in
  let* sender := find_video_sender in
  replaceTrack sender cameraTrack ;;;
  modify (set_localStreamRef (Some cameraStream)) ;;;
  show_local (Some (LocalStream cameraStream)).

Definition startScreenShare : M unit :=
  let* screenStream := getDisplayMedia (mkConstraints true false) in
  let* screenTrack := first_video_track screenStream in
  let* sender := find_video_sender in
  replaceTrack sender screenTrack ;;;
  show_local (Some (LocalStream screenStream)) ;;;
  match screenTrack with
  | Some t => track_set_onended t
  | None => throw   (* assignment to a property of [undefined] *)
  end.

Definition endCall : M unit :=
  let* stream := gets localStreamRef in
  forEach (default [] stream) track_stop ;;;
  with_pcRef pc_close ;;;
  modify (set_pcRef None) ;;;
  modify (set_localStreamRef None) ;;;
  show_local None ;;;
  show_remote None ;;;
  socket_emit call_ended.

Definition reconnectCall : M unit :=
  let* stream := gets localStreamRef in
  match stream with
  | None => ret tt
  | Some _ =>
      with_pcRef pc_close ;;;
      modify (set_pcRef None) ;;;
      createPeerConnection ;;;
      let* pc := pcRef_current in
      let* o := pc_createOffer pc true in
      pc_setLocalDescription pc o ;;;
      socket_emit (reconnect_offer o)
  end.

(** *** Callbacks of an engine created by [createPeerConnection] *)

Definition ontrack (stream : nat) : M unit :=
  show_remote (Some (RemoteStream stream)).

Definition onicecandidate (candidate : option nat) : M unit :=
  match candidate with
  | Some c => socket_emit (ice_candidate c)
  | None => ret tt
  end.

Definition needs_reconnect (st : connection_state) : bool :=
  bool_decide (st = cs_disconnected) || bool_decide (st = cs_failed).

Definition onconnectionstatechange (pc : nat) : M unit :=
  let* e := gets (λ w, pcs w !! pc) in
  match e with
  | Some e => when (needs_reconnect (connectionState e)) reconnectCall
  | None => ret tt
  end.

(** *** Socket handlers registered by the effect *)

Definition socket_on (m : message) : M unit :=
  match m with
  | offer o =>
      startCamera ;;;
      createPeerConnection ;;;
      let* pc := pcRef_current in
      pc_setRemoteDescription pc o ;;;
      let* a := pc_createAnswer pc in
      pc_setLocalDescription pc a ;;;
      socket_emit (answer a)
  | answer a =>
      with_pcRef (λ pc, pc_setRemoteDescription pc a)
  | ice_candidate c =>
      with_pcRef (λ pc, pc_addIceCandidate pc c)
  | reconnect_offer o =>
      with_pcRef pc_close ;;;
      modify (set_pcRef None) ;;;
      createPeerConnection ;;;
      let* pc := pcRef_current in
      pc_setRemoteDescription pc o ;;;
      let* a := pc_createAnswer pc in
      pc_setLocalDescription pc a ;;;
      socket_emit (reconnect_answer a)
  | reconnect_answer a =>
      with_pcRef (λ pc, pc_setRemoteDescription pc a)
  | call_ended =>
      with_pcRef pc_close ;;;
      modify (set_pcRef None) ;;;
      show_remote None
  end.

(** ** Events

    Clicks on the five buttons, messages from the socket, and what the browser
    reports: callbacks of an engine (only while it is not closed), a track
    ended from outside (the user stops sharing), and the user's answer to
    the next permission prompt. *)

Inductive event :=
  | click_startCall
  | click_toggleAudio
  | click_toggleVideo
  | click_startScreenShare
  | click_endCall
  | socket_receive (m : message)
  | pc_track (pc stream : nat)
  | pc_icecandidate (pc : nat) (candidate : option nat)
  | pc_connectionstate (pc : nat) (st : connection_state)
  | track_ended (t : nat)
  | permission (granted : bool).

Definition pc_is_open (w : World) (p : nat) : bool :=
  match pcs w !! p with
  | Some e => negb (isClosed e)
  | None => false
  end.

(** The browser moves engine [p] to connection state [st]. *)
Definition report_connectionState (p : nat) (st : connection_state) : M unit :=
  modify (set_pcs (alter (λ e, mkPc (isClosed e) st (senders e) (localDescription e)
                                    (remoteDescription e) (candidates e)) p)).

(** The browser ends track [t] (which leaves it in the state [stop()] does);
    its [onended], when set, is [stopScreenShare]. *)
Definition end_track (t : nat) : M unit :=
  let* tr := gets (λ w, tracks w !! t) in
  match tr with
  | Some tr =>
      match readyState tr with
      | live => track_stop t ;;; when (onended tr) stopScreenShare
      | ended => ret tt
      end
  | None => ret tt
  end.

Definition dispatch (ev : event) : M unit :=
  match ev with
  | click_startCall => startCall
  | click_toggleAudio => toggleAudio
  | click_toggleVideo => toggleVideo
  | click_startScreenShare => startScreenShare
  | click_endCall => endCall
  | socket_receive m => socket_on m
  | pc_track p stream =>
      let* o := gets (λ w, pc_is_open w p) in when o (ontrack stream)
  | pc_icecandidate p c =>
      let* o := gets (λ w, pc_is_open w p) in when o (onicecandidate c)
  | pc_connectionstate p st =>
      let* o := gets (λ w, pc_is_open w p) in
      when (o && negb (bool_decide (st = cs_closed)))
           (report_connectionState p st ;;; onconnectionstatechange p)
  | track_ended t => end_track t
  | permission b => modify (set_mediaGranted b)
  end.

Definition step (w : World) (ev : event) : World := exec (dispatch ev) w.

Definition run (evs : list event) (w : World) : World := foldl step w evs.

(** The component just mounted: nothing allocated, both video elements there. *)
Definition initial : World :=
  mkWorld [] [] None None (Some (mkVideo None)) (Some (mkVideo None)) [] true [].

(** Engines that are not closed, anywhere in the store. *)
Definition live_engines (w : World) : list nat :=
  filter (λ p, pc_is_open w p = true) (seq 0 (length (pcs w))).

(** ** Worlds the handlers lead to, and predicates on worlds

    Closed forms of what the handlers above compute, used to state and prove
    the properties below. *)

Definition stop_all (s : MediaStream) (ts : list MediaStreamTrack) : list MediaStreamTrack :=
  foldl (λ acc t, alter stopped t acc) ts s.

Definition close_current (w : World) : list RTCPeerConnection :=
  match pcRef w with
  | Some p => alter closed_pc p (pcs w)
  | None => pcs w
  end.

Definition with_senders (l : list (option nat)) (e : RTCPeerConnection) : RTCPeerConnection :=
  mkPc (isClosed e) (connectionState e) l
       (localDescription e) (remoteDescription e) (candidates e).

(** The engine [createPeerConnection] builds: open, with one sender per track
    of the held stream. *)
Definition created_pc (w : World) : RTCPeerConnection :=
  mkPc false cs_new (Some <$> default [] (localStreamRef w)) None None [].

Definition restart_offer (w : World) : RTCSessionDescription :=
  mkSdp sdp_offer (length (pcs w)) true.

Definition reconnected (w : World) : World :=
  mkWorld (close_current w ++
             [mkPc false cs_new (Some <$> default [] (localStreamRef w))
                   (Some (restart_offer w)) None []])
          (tracks w) (Some (length (pcs w))) (localStreamRef w)
          (localVideoRef w) (remoteVideoRef w)
          (emitted w ++ [reconnect_offer (restart_offer w)])
          (mediaGranted w) (requests w).

Definition camera_tracks : list MediaStreamTrack :=
  [fresh_track audio UserMedia; fresh_track video UserMedia].

(** The world after a granted camera request made in [w]. *)
Definition camera_acquired (w : World) : World :=
  let n := length (tracks w) in
  mkWorld (pcs w) (tracks w ++ camera_tracks) (pcRef w) (Some [n; S n])
          (show (Some (LocalStream [n; S n])) (localVideoRef w)) (remoteVideoRef w)
          (emitted w) (mediaGranted w) (requests w ++ [UserMedia]).

Definition offering (w : World) : World :=
  let n := length (pcs w) in
  let o := mkSdp sdp_offer n false in
  mkWorld (pcs w ++ [mkPc false cs_new (Some <$> default [] (localStreamRef w))
                          (Some o) None []])
          (tracks w) (Some n) (localStreamRef w) (localVideoRef w) (remoteVideoRef w)
          (emitted w ++ [offer o]) (mediaGranted w) (requests w).

(** [store] is the engine store the new engine is appended to: [pcs w] after an
    [offer], [close_current w] after a [reconnect-offer]. *)
Definition answering (reply : RTCSessionDescription → message)
    (o : RTCSessionDescription) (store : list RTCPeerConnection) (w : World) : World :=
  let n := length (pcs w) in
  let a := mkSdp sdp_answer n false in
  mkWorld (store ++ [mkPc false cs_new (Some <$> default [] (localStreamRef w))
                          (Some a) (Some o) []])
          (tracks w) (Some n) (localStreamRef w) (localVideoRef w) (remoteVideoRef w)
          (emitted w ++ [reply a]) (mediaGranted w) (requests w).

(** [answer], [ice-candidate] and [reconnect-answer] only reach an engine
    through [pcRef.current?.]: with no current engine they do nothing. *)
Definition needs_engine (m : message) : bool :=
  match m with
  | answer _ | ice_candidate _ | reconnect_answer _ => true
  | offer _ | reconnect_offer _ | call_ended => false
  end.

Definition preserves (P : World → Prop) {A} (m : M A) : Prop :=
  ∀ w, P w → P (snd (m w)).

Definition holds_stream (w : World) : Prop := is_Some (localStreamRef w).

(** Senders of engine [p] whose track is a video track. *)
Definition video_senders (w : World) (p : nat) : list (option nat) :=
  match pcs w !! p with
  | Some e => filter (λ s, sender_has_kind w video s = true) (senders e)
  | None => []
  end.

(** Every track a sender of engine [p] refers to has been allocated. *)
Definition senders_allocated (w : World) (p : nat) : Prop :=
  ∀ e, pcs w !! p = Some e →
       Forall (λ s, ∀ t, s = Some t → t < length (tracks w)) (senders e).

(** Tracks keep their kind, and allocated tracks stay allocated. *)
Definition kinds_kept (w w' : World) : Prop :=
  ∀ t, t < length (tracks w) → kind <$> tracks w' !! t = kind <$> tracks w !! t.

(** [pcRef.current?.getSenders().find(...)] followed by
    [sender?.replaceTrack(t)], common to both screen-share functions. *)
Definition replace_video (t : option nat) : M unit :=
  let* sender := find_video_sender in replaceTrack sender t.

Definition captured_in (o : capture) (ts : list MediaStreamTrack) (w : World) : World :=
  mkWorld (pcs w) (tracks w ++ ts) (pcRef w) (localStreamRef w) (localVideoRef w)
          (remoteVideoRef w) (emitted w) (mediaGranted w) (requests w ++ [o]).

(** The world [startScreenShare] leaves when the screen is granted. *)
Definition screen_shared (w : World) : World :=
  let n := length (tracks w) in
  let w1 := exec (replace_video (Some n))
                 (captured_in DisplayMedia [fresh_track video DisplayMedia] w) in
  set_tracks (alter with_onended n)
    (set_localVideoRef (show (Some (LocalStream [n])) (localVideoRef w1)) w1).

(** The world [stopScreenShare] leaves when the camera is granted. *)
Definition camera_restored (w : World) : World :=
  let n := length (tracks w) in
  let w1 := exec (replace_video (Some (S n))) (captured_in UserMedia camera_tracks w) in
  set_localVideoRef (show (Some (LocalStream [n; S n])) (localVideoRef w1))
    (set_localStreamRef (Some [n; S n]) w1).

(** Well-formed worlds: [pcRef] refers to an open engine, and every track a
    sender or the held stream refers to has been allocated. *)
Record wf (w : World) : Prop := mk_wf {
  wf_pcRef : ∀ p, pcRef w = Some p → pc_is_open w p = true;
  wf_senders : ∀ p, senders_allocated w p;
  wf_stream : ∀ s, localStreamRef w = Some s → Forall (λ t, t < length (tracks w)) s
}.

Definition reachable (w : World) : Prop := ∃ evs, w = run evs initial.

(** ** Relations between the world before and after a handler *)

Definition moves (R : World → World → Prop) {A} (m : M A) : Prop :=
  ∀ w, R w (snd (m w)).

(** Every track of [w] is still there in [w'], of the same kind and origin,
    and still ended if it was. *)
Definition tracks_kept (w w' : World) : Prop :=
  ∀ t tr, tracks w !! t = Some tr →
    ∃ tr', tracks w' !! t = Some tr' ∧ kind tr' = kind tr ∧ origin tr' = origin tr ∧
           (readyState tr = ended → readyState tr' = ended).

(** Which message an event may cause to be sent. *)
Definition accounts_for (ev : event) (m : message) : bool :=
  match ev, m with
  | click_startCall, offer d => negb (sdp_iceRestart d)
  | click_endCall, call_ended => true
  | socket_receive (offer _), answer _ => true
  | socket_receive (reconnect_offer _), reconnect_answer _ => true
  | pc_icecandidate _ (Some c), ice_candidate c' => bool_decide (c = c')
  | pc_connectionstate _ st, reconnect_offer d => needs_reconnect st && sdp_iceRestart d
  | _, _ => false
  end.



(** Nothing was sent between [w] and [w']. *)
Definition same_outbox (w w' : World) : Prop := emitted w' = emitted w.

Definition is_call_ended (m : message) : bool :=
  match m with call_ended => true | _ => false end.

Definition is_click_endCall (ev : event) : bool :=
  match ev with click_endCall => true | _ => false end.

(** Same current engine, and the same engines open. *)
Definition same_engines (w w' : World) : Prop :=
  pcRef w' = pcRef w ∧ ∀ p, pc_is_open w' p = pc_is_open w p.

(** Senders as [createPeerConnection] lays them out: none, or the audio then
    the video track of a camera stream. *)
Definition senders_shaped (w : World) (l : list (option nat)) : Prop :=
  l = [] ∨ ∃ a v, l = [Some a; Some v] ∧
                  track_has_kind w audio a = true ∧ track_has_kind w video v = true.

Record shaped (w : World) : Prop := mk_shaped {
  shaped_stream : ∀ s, localStreamRef w = Some s →
    ∃ a v, s = [a; v] ∧ track_has_kind w audio a = true ∧ track_has_kind w video v = true;
  shaped_senders : ∀ p e, pcs w !! p = Some e → senders_shaped w (senders e)
}.

(** Every track of [w] is still there in [w'], in the same ready state. *)
Definition states_kept (w w' : World) : Prop :=
  ∀ t tr, tracks w !! t = Some tr →
    ∃ tr', tracks w' !! t = Some tr' ∧ readyState tr' = readyState tr.

(** Events whose handler stops tracks: [endCall], and the browser ending one. *)
Definition stops_tracks (ev : event) : bool :=
  match ev with
  | click_endCall | track_ended _ => true
  | _ => false
  end.

(** ** The effect: registering and removing the socket handlers *)

(** The six event names the effect listens to. *)
Inductive channel :=
  | ch_offer | ch_answer | ch_ice_candidate
  | ch_reconnect_offer | ch_reconnect_answer | ch_call_ended.

#[global] Instance channel_eq_dec : EqDecision channel.
Proof. solve_decision. Defined.








(** ** [startCall] around the [await] in [startCamera]

    [startCamera] tests [localStreamRef.current], then awaits the capture, and
    assigns [localStreamRef.current] only when the capture has resolved: a
    click that arrives in between runs against the world the first half
    left. *)

(** [startCamera] up to its [await]: [Some stream] when it is suspended on the
    capture that will deliver [stream], [None] when it returned at the guard. *)
Definition startCamera_until_await : M (option MediaStream) :=
  let* cur := gets localStreamRef in
  match cur with
  | Some _ => ret None   (* already started *)
  | None =>
      let* stream := getUserMedia (mkConstraints true true) in
      ret (Some stream)
  end.

(** [startCamera] from the resolved capture on. *)
Definition startCamera_after_await (stream : MediaStream) : M unit :=
  modify (set_localStreamRef (Some stream)) ;;;
  show_local (Some (LocalStream stream)).

(** [startCall] after [await startCamera()]. *)
Definition startCall_after_camera : M unit :=
  createPeerConnection ;;;
  let* pc := pcRef_current in
  let* o := pc_createOffer pc false in
  pc_setLocalDescription pc o ;;;
  socket_emit (offer o).

(** A click on Start Call, run until the capture is awaited; with a stream
    already held nothing is awaited and the call is made at once. *)
Definition startCall_until_await : M (option MediaStream) :=
  let* pending := startCamera_until_await in
  match pending with
  | Some stream => ret (Some stream)
  | None => startCall_after_camera ;;; ret None
  end.

(** The capture has resolved: the rest of [startCamera], then of [startCall]. *)
Definition startCall_after_await (stream : MediaStream) : M unit :=
  startCamera_after_await stream ;;;
  startCall_after_camera.

(** * Properties *)

(** ** Unfolding handlers *)

Ltac unfold_handler :=
  unfold step, exec, dispatch, socket_on, startCall, startCamera, createPeerConnection,
    reconnectCall, endCall, toggleAudio, toggleVideo, toggleEnabled,
    startScreenShare, stopScreenShare, first_video_track, find_video_sender,
    replaceTrack, onconnectionstatechange, ontrack, onicecandidate, end_track,
    report_connectionState, with_pcRef, pcRef_current, show_local, show_remote,
    socket_emit, new_RTCPeerConnection, pc_close, pc_addIceCandidate,
    pc_setRemoteDescription, pc_setLocalDescription, pc_createAnswer,
    pc_createOffer, pc_addTrack, pc_method, track_set_onended, track_flip_enabled,
    track_stop, update_track, getUserMedia, getDisplayMedia,
    capture_media, when, bind, ret, throw, gets, modify in *.

(** ** Stopping the tracks of a stream *)

Lemma forEach_track_stop s w :
  forEach s track_stop w = (Ok tt, set_tracks (stop_all s) w).
Proof.
  revert w. induction s as [|t s IH]; intros w.
  - by destruct w.
  - cbn [forEach]. unfold bind at 1.
    replace (track_stop t w) with (Ok tt, set_tracks (alter stopped t) w) by done.
    rewrite IH. by destruct w.
Qed.

Lemma length_stop_all s ts : length (stop_all s ts) = length ts.
Proof.
  unfold stop_all. revert ts. induction s as [|t s IH]; intros ts; [done|].
  cbn. by rewrite IH, length_alter.
Qed.

(** A track that is [ended] stays so under [stop_all]. *)
Lemma stop_all_keeps_ended s ts t tr :
  ts !! t = Some tr → readyState tr = ended →
  ∃ tr', stop_all s ts !! t = Some tr' ∧ readyState tr' = ended.
Proof.
  unfold stop_all. revert ts tr.
  induction s as [|u s IH]; intros ts tr Hl He; [by eauto|].
  cbn. destruct (decide (u = t)) as [->|Hne].
  - eapply (IH _ (stopped tr)); [|done].
    by rewrite list_lookup_alter_eq, Hl.
  - eapply IH; [|done]. by rewrite list_lookup_alter_ne.
Qed.

Lemma stop_all_stops s ts t :
  t ∈ s → t < length ts →
  ∃ tr, stop_all s ts !! t = Some tr ∧ readyState tr = ended.
Proof.
  revert ts. induction s as [|u s IH]; intros ts Hin Hlt.
  - by apply elem_of_nil in Hin.
  - change (stop_all (u :: s) ts) with (stop_all s (alter stopped u ts)).
    destruct (decide (u = t)) as [->|Hne].
    + destruct (lookup_lt_is_Some_2 ts t Hlt) as [tr Htr].
      eapply (stop_all_keeps_ended _ _ _ (stopped tr)); [|done].
      by rewrite list_lookup_alter_eq, Htr.
    + apply elem_of_cons in Hin as [->|Hin]; [done|].
      apply IH; [done|]. by rewrite length_alter.
Qed.

(** ** [endCall] *)

Lemma endCall_eq w :
  endCall w =
    (Ok tt,
     mkWorld (close_current w)
             (stop_all (default [] (localStreamRef w)) (tracks w))
             None None
             (show None (localVideoRef w)) (show None (remoteVideoRef w))
             (emitted w ++ [call_ended]) (mediaGranted w) (requests w)).
Proof.
  unfold endCall, close_current. unfold bind at 1. unfold gets at 1. unfold bind at 1.
  rewrite forEach_track_stop.
  destruct w as [ps ts [p|] s lv rv em g rq]; done.
Qed.

(** ** Engines: allocation and method calls *)

Lemma lookup_new_index {A} (l : list A) (x : A) : (l ++ [x]) !! length l = Some x.
Proof. by rewrite list_lookup_middle. Qed.

Lemma alter_new_index {A} (f : A → A) (l : list A) (x : A) :
  alter f (length l) (l ++ [x]) = l ++ [f x].
Proof. rewrite alter_app_r_alt by lia. by rewrite Nat.sub_diag. Qed.

(** Calls on the engine just appended to the store. *)
Ltac on_new_engine :=
  repeat (progress (cbn; unfold set_emitted, set_pcs, set_pcRef, id; cbn;
                    rewrite ?lookup_new_index, ?alter_new_index)).

Lemma pc_method_open p f w e :
  pcs w !! p = Some e → isClosed e = false →
  pc_method p f w = (Ok tt, set_pcs (alter f p) w).
Proof. intros Hl Hc. unfold pc_method, bind, gets. by rewrite Hl, Hc. Qed.

Lemma forEach_addTrack s : ∀ w p e,
  pcs w !! p = Some e → isClosed e = false →
  forEach s (pc_addTrack p) w =
    (Ok tt, set_pcs (<[p := with_senders (senders e ++ (Some <$> s)) e]>) w).
Proof.
  induction s as [|t s IH]; intros w p e Hl Hc.
  - cbn. rewrite app_nil_r. unfold ret. f_equal.
    destruct w, e; cbn in *. unfold set_pcs; cbn. f_equal.
    symmetry. by apply list_insert_id.
  - cbn [forEach]. unfold bind at 1. unfold pc_addTrack at 1.
    rewrite (pc_method_open _ _ _ _ Hl Hc).
    rewrite (IH _ p (with_senders (senders e ++ [Some t]) e));
      [| by cbn; rewrite list_lookup_alter_eq, Hl | done].
    f_equal. destruct w as [ps ts pr st lv rv em g rq]; unfold set_pcs; cbn in *. f_equal.
    rewrite <-app_assoc. cbn.
    rewrite list_insert_alter, list_alter_alter_eq.
    rewrite (list_insert_alter _ p). apply list_alter_ext; [|done].
    intros x Hx. rewrite Hl in Hx. by injection Hx as <-.
Qed.

Lemma createPeerConnection_eq w :
  createPeerConnection w =
    (Ok tt, set_pcRef (Some (length (pcs w))) (set_pcs (λ l, l ++ [created_pc w]) w)).
Proof.
  unfold createPeerConnection, new_RTCPeerConnection.
  unfold bind at 1. unfold bind at 1. unfold gets at 1. unfold bind at 1.
  unfold modify at 1. unfold ret at 1. unfold bind at 1. unfold gets at 1. cbn [localStreamRef set_pcs].
  unfold bind at 1.
  erewrite forEach_addTrack; [| apply lookup_new_index | done ].
  unfold modify. cbn. do 2 f_equal.
  destruct w as [ps ts pr s lv rv em g rq]. unfold set_pcRef, set_pcs; cbn. f_equal.
  replace (length ps) with (length ps + 0) at 1 by lia.
  by rewrite insert_app_r.
Qed.

Lemma length_close_current w : length (close_current w) = length (pcs w).
Proof. unfold close_current. destruct (pcRef w); [apply length_alter|done]. Qed.

(** What [pcRef.current?.close(); pcRef.current = null] leaves. *)
Lemma close_and_forget_eq {A} (k : M A) w :
  (with_pcRef pc_close ;;; modify (set_pcRef None) ;;; k) w =
    k (set_pcRef None (set_pcs (λ _, close_current w) w)).
Proof. unfold close_current. destruct w as [ps ts [p|] s lv rv em g rq]; done. Qed.

(** ** [reconnectCall] *)

Lemma reconnectCall_eq w :
  reconnectCall w =
    (Ok tt, match localStreamRef w with Some _ => reconnected w | None => w end).
Proof.
  unfold reconnectCall. unfold bind at 1. unfold gets at 1.
  destruct (localStreamRef w) as [s|] eqn:Hs; [|done].
  rewrite close_and_forget_eq.
  unfold bind at 1. rewrite createPeerConnection_eq.
  unfold reconnected, restart_offer, created_pc. rewrite Hs.
  destruct w as [ps ts pr s' lv rv em g rq]. cbn in *. subst s'.
  pose proof (length_close_current (mkWorld ps ts pr (Some s) lv rv em g rq)) as Hlen.
  cbn in Hlen. revert Hlen. generalize (close_current (mkWorld ps ts pr (Some s) lv rv em g rq)).
  intros cl Hlen. rewrite <-Hlen.
  unfold_handler. cbn.
  by on_new_engine.
Qed.

(** ** [startCamera] *)

Lemma startCamera_eq w :
  startCamera w =
    match localStreamRef w with
    | Some _ => (Ok tt, w)
    | None =>
        if mediaGranted w then (Ok tt, camera_acquired w)
        else (Throw, set_requests (λ l, l ++ [UserMedia]) w)
    end.
Proof. by destruct w as [ps ts pr [s|] lv rv em [] rq]. Qed.

(** ** Negotiation on a newly created engine *)

Lemma create_and_offer_eq w :
  (createPeerConnection ;;;
   let* pc := pcRef_current in
   let* o := pc_createOffer pc false in
   pc_setLocalDescription pc o ;;;
   socket_emit (offer o)) w = (Ok tt, offering w).
Proof.
  unfold bind at 1. rewrite createPeerConnection_eq.
  destruct w as [ps ts pr s lv rv em g rq]. unfold offering, created_pc.
  unfold_handler. by on_new_engine.
Qed.

Lemma create_and_answer_eq reply o w :
  (createPeerConnection ;;;
   let* pc := pcRef_current in
   pc_setRemoteDescription pc o ;;;
   let* a := pc_createAnswer pc in
   pc_setLocalDescription pc a ;;;
   socket_emit (reply a)) w = (Ok tt, answering reply o (pcs w) w).
Proof.
  unfold bind at 1. rewrite createPeerConnection_eq.
  destruct w as [ps ts pr s lv rv em g rq]. unfold answering, created_pc.
  unfold_handler. by on_new_engine.
Qed.

Lemma startCall_eq w :
  startCall w =
    match startCamera w with
    | (Ok _, w1) => (Ok tt, offering w1)
    | (Throw, w1) => (Throw, w1)
    end.
Proof.
  unfold startCall. unfold bind at 1.
  destruct (startCamera w) as [[[]|] w1]; [apply create_and_offer_eq|done].
Qed.

Lemma on_offer_eq o w :
  socket_on (offer o) w =
    match startCamera w with
    | (Ok _, w1) => (Ok tt, answering answer o (pcs w1) w1)
    | (Throw, w1) => (Throw, w1)
    end.
Proof.
  unfold socket_on. unfold bind at 1.
  destruct (startCamera w) as [[[]|] w1]; [apply create_and_answer_eq|done].
Qed.

Lemma on_reconnect_offer_eq o w :
  socket_on (reconnect_offer o) w =
    (Ok tt, answering reconnect_answer o (close_current w) w).
Proof.
  unfold socket_on. rewrite close_and_forget_eq, create_and_answer_eq.
  unfold answering; cbn. by rewrite length_close_current.
Qed.

Lemma on_call_ended_eq w :
  socket_on call_ended w =
    (Ok tt, set_remoteVideoRef (show None (remoteVideoRef w))
              (set_pcRef None (set_pcs (λ _, close_current w) w))).
Proof. unfold socket_on. by rewrite close_and_forget_eq. Qed.

Lemma needs_engine_ignored m w :
  needs_engine m = true → pcRef w = None → socket_on m w = (Ok tt, w).
Proof.
  intros Hm Hp. destruct m; try done; unfold_handler; by rewrite Hp.
Qed.

(** ** Ending a call *)

(** C10: [endCall] can be invoked in every state, also with no engine and no
    media ever acquired: it completes without throwing and emits exactly one
    [call-ended] message. *)
Theorem endCall_never_fails (w : World) :
  fst (endCall w) = Ok tt ∧
  emitted (exec endCall w) = emitted w ++ [call_ended].
Proof. unfold exec. by rewrite endCall_eq. Qed.

(** C3, as stated, fails: after [endCall] an incoming [offer] is not ignored.
    From the mounted component, start a call, end it, then receive an offer:
    a new engine (number 1) is created, the camera is reacquired and an
    [answer] goes out. *)
Lemma offer_after_endCall_is_answered :
  let w := run [click_startCall; click_endCall] initial in
  let w' := step w (socket_receive (offer (mkSdp sdp_offer 100 false))) in
  pcRef w = None ∧ localStreamRef w = None ∧
  pcRef w' = Some 1 ∧
  localStreamRef w' = Some [2; 3] ∧
  emitted w' = emitted w ++ [answer (mkSdp sdp_answer 1 false)].
Proof. by vm_compute. Qed.

(** C3, amended: in every state [endCall] completes, closes the current engine,
    stops every track of the held stream, emits exactly one [call-ended],
    and clears [pcRef], [localStreamRef] and both video surfaces; a second
    [endCall] finds nothing more to close.  Afterwards [answer],
    [ice-candidate] and [reconnect-answer] change nothing and emit nothing,
    whereas a [reconnect-offer], and an [offer] when the camera is granted,
    are answered from a new engine. *)
Theorem endCall_releases_and_clears (w : World) :
  let w' := exec endCall w in
  fst (endCall w) = Ok tt ∧
  emitted w' = emitted w ++ [call_ended] ∧
  pcRef w' = None ∧
  localStreamRef w' = None ∧
  localVideoRef w' = show None (localVideoRef w) ∧
  remoteVideoRef w' = show None (remoteVideoRef w) ∧
  (∀ p e, pcRef w = Some p → pcs w !! p = Some e → pcs w' !! p = Some (closed_pc e)) ∧
  (∀ s t, localStreamRef w = Some s → t ∈ s → t < length (tracks w) →
     ∃ tr, tracks w' !! t = Some tr ∧ readyState tr = ended) ∧
  pcs (exec endCall w') = pcs w' ∧
  (∀ m, needs_engine m = true → step w' (socket_receive m) = w') ∧
  (∀ o, emitted (step w' (socket_receive (reconnect_offer o))) =
          emitted w' ++ [reconnect_answer (mkSdp sdp_answer (length (pcs w)) false)]) ∧
  (∀ o, mediaGranted w = true →
        emitted (step w' (socket_receive (offer o))) =
          emitted w' ++ [answer (mkSdp sdp_answer (length (pcs w)) false)]).
Proof.
  cbv zeta. unfold exec. rewrite !endCall_eq. cbn [fst snd].
  set (w' := mkWorld _ _ _ _ _ _ _ _ _).
  repeat split; try done.
  - intros p e Hp He. subst w'; cbn. unfold close_current. rewrite Hp.
    by rewrite list_lookup_alter_eq, He.
  - intros s t Hs Hin Hlt. subst w'; cbn. rewrite Hs; cbn.
    by apply stop_all_stops.
  - intros m Hm. unfold step, exec, dispatch.
    by rewrite needs_engine_ignored.
  - intros o. unfold step, exec, dispatch. rewrite on_reconnect_offer_eq.
    subst w'; cbn. by rewrite length_close_current.
  - intros o Hg. unfold step, exec, dispatch. rewrite on_offer_eq, startCamera_eq.
    subst w'; cbn. rewrite Hg; cbn. by rewrite length_close_current.
Qed.

Lemma endCall_releases_and_clears_witness :
  let w := run [click_startCall] initial in
  let w' := exec endCall w in
  emitted w' = emitted w ++ [call_ended] ∧
  pcs w' !! 0 = Some (closed_pc (mkPc false cs_new [Some 0; Some 1]
                                      (Some (mkSdp sdp_offer 0 false)) None [])) ∧
  (∃ tr, tracks w' !! 1 = Some tr ∧ readyState tr = ended) ∧
  step w' (socket_receive (ice_candidate 7)) = w' ∧
  emitted (step w' (socket_receive (offer (mkSdp sdp_offer 100 false)))) =
    emitted w' ++ [answer (mkSdp sdp_answer 1 false)].
Proof.
  pose proof (endCall_releases_and_clears (run [click_startCall] initial))
    as (_ & Hem & _ & _ & _ & _ & Hpc & Htr & _ & Hign & _ & Hoffer).
  cbv zeta. split; [exact Hem|].
  split; [apply (Hpc 0); reflexivity|].
  split; [apply (Htr [0; 1]); [reflexivity|repeat constructor|vm_compute; lia]|].
  split; [apply Hign; reflexivity|]. apply Hoffer; reflexivity.
Defined.

(** C4, at the failing input: a call is started and the peer then sends
    [call-ended].  The engine is closed and nothing is emitted in reply, but
    the two camera tracks stay live and the stream stays referenced, whereas
    [endCall] stops and drops them. *)
Theorem remote_call_ended_keeps_tracks_live :
  let w := run [click_startCall] initial in
  let w' := step w (socket_receive call_ended) in
  pcRef w' = None ∧ live_engines w' = [] ∧
  emitted w' = emitted w ∧
  localStreamRef w' = Some [0; 1] ∧
  readyState <$> tracks w' = [live; live] ∧
  readyState <$> tracks (exec endCall w) = [ended; ended].
Proof. by vm_compute. Qed.

(** The [call-ended] handler in general: tracks, stream reference, local
    preview and outbox are untouched. *)
Lemma on_call_ended_frame (w : World) :
  let w' := step w (socket_receive call_ended) in
  tracks w' = tracks w ∧ localStreamRef w' = localStreamRef w ∧
  localVideoRef w' = localVideoRef w ∧ emitted w' = emitted w ∧
  pcRef w' = None ∧ pcs w' = close_current w.
Proof. cbv zeta. unfold step, exec, dispatch. by rewrite on_call_ended_eq. Qed.

(** ** One engine at a time *)

(** C1, at the failing input: two offers in a row.  The second [offer] handler
    calls [createPeerConnection] without closing the engine [pcRef] holds
    (the [reconnect-offer] handler and [reconnectCall] do close it first), so
    engines 0 and 1 are both open afterwards, and engine 0 keeps its
    callbacks. *)
Theorem second_offer_leaves_two_open_engines :
  let o := mkSdp sdp_offer 100 false in
  let w1 := run [socket_receive (offer o)] initial in
  let w2 := step w1 (socket_receive (offer o)) in
  pcRef w1 = Some 0 ∧ live_engines w1 = [0] ∧
  pcRef w2 = Some 1 ∧ live_engines w2 = [0; 1] ∧
  live_engines (run [click_startCall; click_startCall] initial) = [0; 1] ∧
  live_engines (step w1 (socket_receive (reconnect_offer o))) = [1].
Proof. by vm_compute. Qed.

(** In general, [offer] and [startCall] append a new engine and leave every
    engine of the store as it was, the one [pcRef] held included. *)
Lemma offer_keeps_previous_engine (w : World) (o : RTCSessionDescription) (p : nat) :
  pc_is_open w p = true →
  fst (socket_on (offer o) w) = Ok tt →
  let w' := step w (socket_receive (offer o)) in
  pcRef w' = Some (length (pcs w)) ∧
  pc_is_open w' p = true ∧
  pc_is_open w' (length (pcs w)) = true.
Proof.
  intros Hp. cbv zeta. unfold step, exec, dispatch.
  rewrite on_offer_eq, startCamera_eq. unfold pc_is_open in *.
  destruct (pcs w !! p) as [e|] eqn:He; [|done].
  destruct (localStreamRef w); [|destruct (mediaGranted w)]; cbn; try done; intros _.
  all: rewrite lookup_new_index, (lookup_app_l_Some _ _ _ _ He); done.
Qed.

(** ** Reconnection *)

(** A [disconnected] or [failed] report on an open engine: the state is
    recorded, then [reconnectCall] runs. *)
Lemma connectionstate_event_eq (w : World) (p : nat) (st : connection_state) :
  needs_reconnect st = true →
  step w (pc_connectionstate p st) =
    if pc_is_open w p
    then exec reconnectCall (exec (report_connectionState p st) w)
    else w.
Proof.
  intros Hst. unfold step, exec, dispatch. unfold bind at 1. unfold gets at 1.
  assert (st ≠ cs_closed) as Hne by (by intros ->).
  rewrite (bool_decide_eq_false_2 _ Hne), andb_true_r.
  unfold pc_is_open. destruct (pcs w !! p) as [e|] eqn:He; [|done].
  destruct (isClosed e); [done|]. cbn [negb when].
  unfold bind at 1. unfold report_connectionState, modify.
  unfold onconnectionstatechange. unfold bind, gets. cbn -[reconnectCall].
  rewrite list_lookup_alter_eq, He. cbn -[reconnectCall]. by rewrite Hst.
Qed.

(** C9: with no local stream held, a [disconnected] or [failed] report is a
    no-op for the session: [reconnectCall] returns at once with the world
    unchanged, so the event leaves nothing behind but the reported state of
    that engine. *)
Theorem reconnect_without_stream_is_noop (w : World) (p : nat) (st : connection_state) :
  localStreamRef w = None →
  needs_reconnect st = true →
  reconnectCall w = (Ok tt, w) ∧
  step w (pc_connectionstate p st) =
    (if pc_is_open w p then exec (report_connectionState p st) w else w) ∧
  let w' := step w (pc_connectionstate p st) in
  pcRef w' = pcRef w ∧ emitted w' = emitted w ∧ length (pcs w') = length (pcs w) ∧
  live_engines w' = live_engines w ∧
  (∀ q, localDescription <$> pcs w' !! q = localDescription <$> pcs w !! q).
Proof.
  intros Hs Hst.
  assert (reconnectCall w = (Ok tt, w)) as Hrc by (by rewrite reconnectCall_eq, Hs).
  assert (step w (pc_connectionstate p st) =
          (if pc_is_open w p then exec (report_connectionState p st) w else w)) as Hstep.
  { rewrite connectionstate_event_eq by done.
    destruct (pc_is_open w p); [|done].
    unfold exec at 1. rewrite reconnectCall_eq. cbn. by rewrite Hs. }
  split; [done|]. split; [done|]. cbv zeta. rewrite Hstep.
  destruct (pc_is_open w p) eqn:Hop; [|done].
  unfold exec, report_connectionState, modify; cbn.
  split; [done|]. split; [done|]. split; [apply length_alter|].
  split.
  - unfold live_engines; cbn. rewrite length_alter.
    apply list_filter_iff. intros q. unfold pc_is_open; cbn.
    destruct (decide (p = q)) as [->|Hne].
    + rewrite list_lookup_alter_eq. by destruct (pcs w !! q).
    + by rewrite list_lookup_alter_ne.
  - intros q. destruct (decide (p = q)) as [->|Hne].
    + rewrite list_lookup_alter_eq. by destruct (pcs w !! q).
    + by rewrite list_lookup_alter_ne.
Qed.

Lemma reconnect_without_stream_is_noop_witness :
  let w := run [socket_receive (reconnect_offer (mkSdp sdp_offer 100 true))] initial in
  reconnectCall w = (Ok tt, w) ∧
  emitted (step w (pc_connectionstate 0 cs_failed)) = emitted w ∧
  live_engines (step w (pc_connectionstate 0 cs_failed)) = live_engines w.
Proof.
  pose proof (reconnect_without_stream_is_noop
                (run [socket_receive (reconnect_offer (mkSdp sdp_offer 100 true))] initial)
                0 cs_failed eq_refl eq_refl) as (H1 & _ & _ & H2 & _ & H3 & _).
  cbv zeta. split; [exact H1|]. split; [exact H2|exact H3].
Defined.

(** C2, as stated, fails: a session can be connected with no local stream
    held (a [reconnect-offer] is answered without starting the camera), and
    there a [failed] report sends no [reconnect-offer] at all. *)
Lemma failed_without_stream_sends_no_reconnect_offer :
  let w := run [socket_receive (reconnect_offer (mkSdp sdp_offer 100 true));
                pc_connectionstate 0 cs_connected] initial in
  let w' := step w (pc_connectionstate 0 cs_failed) in
  pcRef w = Some 0 ∧
  connectionState <$> pcs w !! 0 = Some cs_connected ∧
  emitted w' = emitted w ∧
  pcRef w' = Some 0 ∧ localDescription <$> pcs w' !! 0 = localDescription <$> pcs w !! 0.
Proof. by vm_compute. Qed.

(** Nothing guards a restart already under way: a second [failed] report,
    before any [reconnect-answer], sends a second [reconnect-offer]. *)
Lemma repeated_failure_repeats_reconnect_offer :
  emitted (run [click_startCall; pc_connectionstate 0 cs_failed;
                pc_connectionstate 1 cs_failed] initial) =
    [offer (mkSdp sdp_offer 0 false);
     reconnect_offer (mkSdp sdp_offer 1 true);
     reconnect_offer (mkSdp sdp_offer 2 true)].
Proof. by vm_compute. Qed.

(** C2, amended: when a local stream is held, a [failed] or [disconnected]
    report of an open engine emits exactly one [reconnect-offer], closes the
    engine [pcRef] held and replaces it by a new one carrying the held tracks
    and the ICE-restart offer as local description, still without remote
    description; a [reconnect-answer] received next sets the remote
    description of that engine and emits nothing. *)
Theorem failed_then_reconnect_answer
    (w : World) (s : MediaStream) (p : nat) (st : connection_state)
    (a : RTCSessionDescription) :
  localStreamRef w = Some s →
  pc_is_open w p = true →
  needs_reconnect st = true →
  let n := length (pcs w) in
  let o := mkSdp sdp_offer n true in
  let w1 := step w (pc_connectionstate p st) in
  let w2 := step w1 (socket_receive (reconnect_answer a)) in
  emitted w1 = emitted w ++ [reconnect_offer o] ∧
  pcRef w1 = Some n ∧
  pcs w1 !! n = Some (mkPc false cs_new (Some <$> s) (Some o) None []) ∧
  (∀ q, pcRef w = Some q → q < n → pc_is_open w1 q = false) ∧
  tracks w1 = tracks w ∧ localStreamRef w1 = Some s ∧
  emitted w2 = emitted w1 ∧
  pcRef w2 = Some n ∧
  pcs w2 !! n = Some (mkPc false cs_new (Some <$> s) (Some o) (Some a) []).
Proof.
  intros Hs Hp Hst. cbv zeta.
  rewrite connectionstate_event_eq, Hp by done.
  set (w0 := exec (report_connectionState p st) w).
  assert (localStreamRef w0 = Some s) as Hs0 by done.
  assert (pcRef w0 = pcRef w) as Hp0 by done.
  assert (length (pcs w0) = length (pcs w)) as Hlen by apply length_alter.
  assert (emitted w0 = emitted w) as Hem0 by done.
  assert (tracks w0 = tracks w) as Htr0 by done.
  clearbody w0.
  assert (exec reconnectCall w0 = reconnected w0) as ->.
  { unfold exec. by rewrite reconnectCall_eq, Hs0. }
  assert (pcs (reconnected w0) !! length (pcs w) =
          Some (mkPc false cs_new (Some <$> s)
                     (Some (mkSdp sdp_offer (length (pcs w)) true)) None [])) as Hnew.
  { unfold reconnected, restart_offer; cbn [pcs]. rewrite Hs0, Hlen.
    rewrite <-Hlen at 1. rewrite <-(length_close_current w0). apply lookup_new_index. }
  assert (socket_on (reconnect_answer a) (reconnected w0) =
          (Ok tt, set_pcs (alter (λ e, mkPc (isClosed e) (connectionState e) (senders e)
                                           (localDescription e) (Some a) (candidates e))
                                 (length (pcs w))) (reconnected w0))) as Hans.
  { unfold socket_on, with_pcRef, bind, gets. cbn [pcRef reconnected]. rewrite Hlen.
    unfold pc_setRemoteDescription. by rewrite (pc_method_open _ _ _ _ Hnew eq_refl). }
  unfold step, exec, dispatch. rewrite Hans. cbn [snd].
  split; [by unfold reconnected, restart_offer; cbn; rewrite Hlen, Hem0|].
  split; [by unfold reconnected; cbn; rewrite Hlen|].
  split; [done|].
  split.
  { intros q Hq Hlt. unfold pc_is_open, reconnected; cbn [pcs].
    unfold close_current. rewrite Hp0, Hq.
    rewrite lookup_app_l by (rewrite length_alter; lia).
    rewrite list_lookup_alter_eq.
    by destruct (pcs w0 !! q). }
  split; [by rewrite <-Htr0|].
  split; [done|].
  split; [done|].
  split; [by unfold reconnected; cbn; rewrite Hlen|].
  cbn [pcs set_pcs]. by rewrite list_lookup_alter_eq, Hnew.
Qed.

Lemma failed_then_reconnect_answer_witness :
  let w := run [click_startCall; pc_connectionstate 0 cs_connected] initial in
  let a := mkSdp sdp_answer 100 false in
  let o := mkSdp sdp_offer 1 true in
  let w1 := step w (pc_connectionstate 0 cs_failed) in
  let w2 := step w1 (socket_receive (reconnect_answer a)) in
  emitted w1 = emitted w ++ [reconnect_offer o] ∧
  pc_is_open w1 0 = false ∧
  pcs w2 !! 1 = Some (mkPc false cs_new [Some 0; Some 1] (Some o) (Some a) []).
Proof.
  pose proof (failed_then_reconnect_answer
                (run [click_startCall; pc_connectionstate 0 cs_connected] initial)
                [0; 1] 0 cs_failed (mkSdp sdp_answer 100 false)
                eq_refl eq_refl eq_refl) as (H1 & _ & _ & H2 & _ & _ & _ & _ & H3).
  cbv zeta. split; [exact H1|]. split; [|exact H3].
  apply H2; [reflexivity|vm_compute; lia].
Defined.

(** ** Remote ICE candidates *)

(** C7, as stated, fails: a candidate received while no engine exists is not
    kept anywhere.  The world after it is the world before it, and the
    engine created by the following [offer] never sees it. *)
Lemma early_candidate_is_lost :
  let o := mkSdp sdp_offer 100 false in
  let w1 := step initial (socket_receive (ice_candidate 7)) in
  let w2 := step w1 (socket_receive (offer o)) in
  w1 = initial ∧
  pcRef w2 = Some 0 ∧
  remoteDescription <$> pcs w2 !! 0 = Some (Some o) ∧
  candidates <$> pcs w2 !! 0 = Some [].
Proof. by vm_compute. Qed.

(** C7, amended: a remote candidate is handed to [addIceCandidate] of the
    current engine when there is one, leaving everything else as it was; with
    no current engine it is discarded, the world being left unchanged. *)
Theorem remote_candidate_forwarded_or_discarded (w : World) (c : nat) :
  let w' := step w (socket_receive (ice_candidate c)) in
  (∀ p e, pcRef w = Some p → pcs w !! p = Some e → isClosed e = false →
     pcs w' !! p = Some (mkPc false (connectionState e) (senders e) (localDescription e)
                              (remoteDescription e) (candidates e ++ [c])) ∧
     (∀ q, q ≠ p → pcs w' !! q = pcs w !! q) ∧
     emitted w' = emitted w ∧ pcRef w' = pcRef w ∧ tracks w' = tracks w ∧
     localStreamRef w' = localStreamRef w) ∧
  (pcRef w = None → w' = w).
Proof.
  cbv zeta. unfold step, exec, dispatch. split.
  - intros p e Hp He Hc. unfold socket_on, with_pcRef, bind, gets. rewrite Hp.
    unfold pc_addIceCandidate. rewrite (pc_method_open _ _ _ _ He Hc). cbn.
    rewrite list_lookup_alter_eq, He; cbn. rewrite Hc. repeat split; try done.
    intros q Hq. by rewrite list_lookup_alter_ne.
  - intros Hp. by rewrite needs_engine_ignored.
Qed.

Lemma remote_candidate_forwarded_or_discarded_witness :
  let w := run [click_startCall] initial in
  candidates <$> pcs (step w (socket_receive (ice_candidate 7))) !! 0 = Some [7] ∧
  step initial (socket_receive (ice_candidate 7)) = initial.
Proof.
  cbv zeta. split.
  - destruct (remote_candidate_forwarded_or_discarded (run [click_startCall] initial) 7)
      as [H _].
    destruct (H 0 (mkPc false cs_new [Some 0; Some 1]
                        (Some (mkSdp sdp_offer 0 false)) None [])
                eq_refl eq_refl eq_refl) as (-> & _).
    reflexivity.
  - destruct (remote_candidate_forwarded_or_discarded initial 7) as [_ H].
    apply H. reflexivity.
Defined.

(** ** Mute *)

Lemma toggleEnabled_eq k w :
  toggleEnabled k w =
    (Ok tt, match held_track k w with
            | Some t => set_tracks (alter flipped t) w
            | None => w
            end).
Proof. unfold toggleEnabled, bind, gets. by destruct (held_track k w). Qed.



(** With no held track of the kind, the toggle does nothing at all. *)
Lemma toggleEnabled_without_track (w : World) (k : track_kind) :
  held_track k w = None → toggleEnabled k w = (Ok tt, w).
Proof. intros Hh. by rewrite toggleEnabled_eq, Hh. Qed.

(** ** What a handler cannot undo *)

Section preserves.
Context (P : World → Prop).

Lemma preserves_ret {A} (a : A) : preserves P (ret a).
Proof. by intros w. Qed.

Lemma preserves_throw {A} : preserves P (@throw A).
Proof. by intros w. Qed.

Lemma preserves_gets {A} (f : World → A) : preserves P (gets f).
Proof. by intros w. Qed.

Lemma preserves_modify (f : World → World) :
  (∀ w, P w → P (f w)) → preserves P (modify f).
Proof. intros Hf w. apply Hf. Qed.

Lemma preserves_bind {A B} (m : M A) (k : A → M B) :
  preserves P m → (∀ a, preserves P (k a)) → preserves P (bind m k).
Proof.
  intros Hm Hk w Hw. unfold bind. specialize (Hm w Hw).
  destruct (m w) as [[a|] w1]; [by apply Hk|done].
Qed.

Lemma preserves_forEach {A} (xs : list A) (f : A → M unit) :
  (∀ x, preserves P (f x)) → preserves P (forEach xs f).
Proof.
  intros Hf. induction xs as [|x xs IH]; [apply preserves_ret|].
  cbn. apply preserves_bind; [apply Hf|by intros _].
Qed.

Lemma preserves_when (c : bool) (m : M unit) :
  preserves P m → preserves P (when c m).
Proof. intros Hm. destruct c; [done|apply preserves_ret]. Qed.
End preserves.

(** Break a handler down to its reads and writes. *)
Ltac preserves_step :=
  lazymatch goal with
  | |- preserves _ (ret _) => apply preserves_ret
  | |- preserves _ throw => apply preserves_throw
  | |- preserves _ (gets _) => apply preserves_gets
  | |- preserves _ (bind _ _) => apply preserves_bind; [|intros ?]
  | |- preserves _ (forEach _ _) => apply preserves_forEach; intros ?
  | |- preserves _ (when _ _) => apply preserves_when
  | |- preserves _ (modify _) => apply preserves_modify; intros ? ?
  | |- preserves _ (match ?x with _ => _ end) => destruct x
  end.

Ltac unfold_component :=
  unfold dispatch, socket_on, startCall, startCamera, createPeerConnection,
    reconnectCall, toggleAudio, toggleVideo, toggleEnabled,
    startScreenShare, stopScreenShare, first_video_track, find_video_sender,
    replaceTrack, onconnectionstatechange, ontrack, onicecandidate, end_track,
    report_connectionState, with_pcRef, pcRef_current, show_local, show_remote,
    socket_emit, new_RTCPeerConnection, pc_close, pc_addIceCandidate,
    pc_setRemoteDescription, pc_setLocalDescription, pc_createAnswer,
    pc_createOffer, pc_addTrack, pc_method, track_set_onended, track_flip_enabled,
    track_stop, update_track, getUserMedia, getDisplayMedia, capture_media.

(** Only [endCall] drops the stream reference. *)
Lemma holds_stream_preserved (ev : event) :
  ev ≠ click_endCall → preserves holds_stream (dispatch ev).
Proof.
  intros Hev. destruct ev as [| | | | |m| | | | |]; try done.
  all: try destruct m.
  all: repeat (progress (unfold_component; repeat preserves_step)); try done.
  all: by eexists.
Qed.

Lemma holds_stream_run (evs : list event) : ∀ w,
  Forall (λ ev, ev ≠ click_endCall) evs →
  holds_stream w → holds_stream (run evs w).
Proof.
  induction evs as [|ev evs IH]; intros w Hall Hw; [done|].
  apply Forall_cons in Hall as [Hev Hall].
  cbn. apply IH; [done|]. by apply holds_stream_preserved.
Qed.

(** ** Media acquisition *)

(** With a stream held, [startCall] asks for no media and leaves tracks and
    stream reference alone. *)
Lemma startCall_with_stream (w : World) :
  holds_stream w →
  let w' := step w click_startCall in
  requests w' = requests w ∧ tracks w' = tracks w ∧
  localStreamRef w' = localStreamRef w.
Proof.
  intros [s Hs]. cbv zeta. unfold step, exec, dispatch.
  by rewrite startCall_eq, startCamera_eq, Hs.
Qed.

(** Calls that do not overlap: once [startCall] has gone through, a second
    [startCall] with no [endCall] in between (whatever else happens in
    between) makes no capture request and leaves the tracks and the held
    stream unchanged; the first call makes one request when no stream was
    held, none otherwise. *)
Theorem startCall_twice_acquires_once (w : World) (evs : list event) :
  fst (startCall w) = Ok tt →
  Forall (λ ev, ev ≠ click_endCall) evs →
  let w1 := step w click_startCall in
  let w2 := run evs w1 in
  let w3 := step w2 click_startCall in
  requests w1 =
    requests w ++ match localStreamRef w with Some _ => [] | None => [UserMedia] end ∧
  holds_stream w1 ∧ holds_stream w2 ∧
  requests w3 = requests w2 ∧
  tracks w3 = tracks w2 ∧
  localStreamRef w3 = localStreamRef w2.
Proof.
  intros Hok Hevs. cbv zeta.
  assert (requests (step w click_startCall) =
            requests w ++ match localStreamRef w with Some _ => [] | None => [UserMedia] end
          ∧ holds_stream (step w click_startCall)) as [Hrq H1].
  { unfold step, exec, dispatch. revert Hok. rewrite startCall_eq, startCamera_eq.
    destruct (localStreamRef w) as [s|] eqn:Hs.
    - intros _. cbn. rewrite app_nil_r. split; [done|by exists s].
    - destruct (mediaGranted w); [|done]. intros _. cbn. split; [done|by eexists]. }
  pose proof (holds_stream_run evs _ Hevs H1) as H2.
  split; [done|]. split; [done|]. split; [done|].
  by apply startCall_with_stream.
Qed.

Lemma startCall_twice_acquires_once_witness :
  fst (startCall initial) = Ok tt ∧
  let w1 := step initial click_startCall in
  let w2 := run [permission false; click_toggleVideo] w1 in
  let w3 := step w2 click_startCall in
  requests w1 = requests initial ++ [UserMedia] ∧
  holds_stream w1 ∧ holds_stream w2 ∧
  requests w3 = requests w2 ∧
  tracks w3 = tracks w2 ∧
  localStreamRef w3 = localStreamRef w2.
Proof.
  split; [vm_compute; reflexivity|].
  apply (startCall_twice_acquires_once initial [permission false; click_toggleVideo]).
  - vm_compute; reflexivity.
  - repeat constructor; discriminate.
Defined.

(** ** Screen sharing *)

(** [find] returns the first match, so replacing it by another match keeps
    the matches that follow. *)
Lemma find_index_replace {A} (f : A → bool) (l : list A) (x y : A) (r : list A) :
  filter (λ a, f a = true) l = x :: r → f y = true →
  ∃ i, find_index f l = Some i ∧ i < length l ∧
       filter (λ a, f a = true) (<[i := y]> l) = y :: r.
Proof.
  intros Hf Hy. induction l as [|a l IH]; [done|].
  cbn [find_index]. destruct (f a) eqn:Ha.
  - exists 0. rewrite filter_cons_True in Hf by done. injection Hf as _ Hr.
    split; [done|]. split; [cbn; lia|].
    change (<[0:=y]> (a :: l)) with (y :: l).
    by rewrite filter_cons_True, Hr.
  - rewrite filter_cons_False in Hf by (by rewrite Ha).
    destruct (IH Hf) as (i & Hi & Hlt & Hfi). exists (S i).
    rewrite Hi. split; [done|]. split; [cbn; lia|].
    change (<[S i:=y]> (a :: l)) with (a :: <[i:=y]> l).
    by rewrite filter_cons_False by (by rewrite Ha).
Qed.

Lemma filter_agree {A} (f g : A → bool) (l : list A) :
  Forall (λ a, f a = g a) l →
  filter (λ a, f a = true) l = filter (λ a, g a = true) l.
Proof.
  induction 1 as [|a l Ha _ IH]; [done|].
  destruct (g a) eqn:Hg.
  - rewrite !filter_cons_True by congruence. by rewrite IH.
  - rewrite !filter_cons_False by congruence. done.
Qed.

Lemma track_has_kind_kept w w' k t :
  kinds_kept w w' → t < length (tracks w) →
  track_has_kind w' k t = track_has_kind w k t.
Proof.
  intros Hk Hlt. specialize (Hk t Hlt). unfold track_has_kind.
  destruct (tracks w' !! t), (tracks w !! t); cbn in Hk; try done.
  by injection Hk as ->.
Qed.

Lemma video_senders_kept w w' p :
  pcs w' = pcs w → kinds_kept w w' → senders_allocated w p →
  video_senders w' p = video_senders w p.
Proof.
  intros Hpcs Hk Hal. unfold video_senders. rewrite Hpcs.
  destruct (pcs w !! p) as [e|] eqn:He; [|done].
  apply filter_agree. eapply Forall_impl; [by apply Hal|].
  intros [t|] Ht; [|done]. cbn. apply track_has_kind_kept; [done|by apply Ht].
Qed.

Lemma senders_allocated_kept w w' p :
  pcs w' = pcs w → length (tracks w) ≤ length (tracks w') →
  senders_allocated w p → senders_allocated w' p.
Proof.
  intros Hpcs Hlen Hal e He. rewrite Hpcs in He.
  eapply Forall_impl; [by apply Hal|]. intros s Hs t Ht. specialize (Hs t Ht). lia.
Qed.

(** *** Redirecting the video sender *)

Lemma replace_video_then {A} (k : M A) t w :
  (let* sender := find_video_sender in replaceTrack sender t ;;; k) w =
    k (exec (replace_video t) w).
Proof.
  unfold exec, replace_video, bind, find_video_sender, gets.
  by destruct (_ ≫= _) as [[p i]|].
Qed.

Lemma replace_video_frame t w :
  let w' := exec (replace_video t) w in
  tracks w' = tracks w ∧ pcRef w' = pcRef w ∧ localStreamRef w' = localStreamRef w ∧
  emitted w' = emitted w ∧ requests w' = requests w ∧ mediaGranted w' = mediaGranted w ∧
  localVideoRef w' = localVideoRef w ∧ length (pcs w') = length (pcs w).
Proof.
  cbv zeta. unfold exec, replace_video, bind, find_video_sender, gets.
  destruct (_ ≫= _) as [[p i]|]; cbn; [|done].
  repeat split. apply length_alter.
Qed.

Lemma replace_video_spec (t : nat) (w : World) (p : nat) (x : option nat) (r : list (option nat)) :
  pcRef w = Some p →
  track_has_kind w video t = true →
  video_senders w p = x :: r →
  video_senders (exec (replace_video (Some t)) w) p = Some t :: r.
Proof.
  intros Hp Ht Hv. unfold video_senders in Hv.
  destruct (pcs w !! p) as [e|] eqn:He; [|done].
  destruct (find_index_replace (sender_has_kind w video) (senders e) x (Some t) r Hv Ht)
    as (i & Hi & Hlt & Hf).
  unfold exec, replace_video, bind, find_video_sender, gets.
  rewrite Hp; cbn. rewrite He; cbn. rewrite Hi; cbn.
  unfold video_senders; cbn. by rewrite list_lookup_alter_eq, He.
Qed.

(** *** Capture requests that are granted *)

Lemma capture_media_granted o c w :
  mediaGranted w = true →
  capture_media o c w =
    (Ok (seq (length (tracks w)) (length (captured o c))), captured_in o (captured o c) w).
Proof. intros Hg. unfold capture_media, bind, modify, gets, ret; cbn. by rewrite Hg. Qed.

Lemma kinds_kept_captured o ts w : kinds_kept w (captured_in o ts w).
Proof. intros t Ht. cbn. by rewrite lookup_app_l. Qed.

Lemma startScreenShare_eq w :
  mediaGranted w = true → startScreenShare w = (Ok tt, screen_shared w).
Proof.
  intros Hg. unfold startScreenShare, getDisplayMedia. unfold bind at 1.
  rewrite capture_media_granted by done.
  change (captured DisplayMedia (mkConstraints true false))
    with [fresh_track video DisplayMedia].
  set (wa := captured_in _ _ w). cbn [length seq].
  unfold bind at 1. unfold first_video_track, gets.
  assert (head (getTracksOfKind wa video [length (tracks w)]) = Some (length (tracks w))) as ->.
  { unfold getTracksOfKind. rewrite filter_cons_True; [done|].
    unfold track_has_kind. subst wa; cbn. by rewrite lookup_new_index. }
  rewrite replace_video_then. unfold screen_shared. fold wa.
  by unfold_handler.
Qed.

Lemma stopScreenShare_eq w :
  mediaGranted w = true → stopScreenShare w = (Ok tt, camera_restored w).
Proof.
  intros Hg. unfold stopScreenShare, getUserMedia. unfold bind at 1.
  rewrite capture_media_granted by done.
  change (captured UserMedia (mkConstraints true true)) with camera_tracks.
  set (wa := captured_in _ _ w). cbn [length seq camera_tracks].
  unfold bind at 1. unfold first_video_track, gets.
  assert (head (getTracksOfKind wa video [length (tracks w); S (length (tracks w))])
          = Some (S (length (tracks w)))) as ->.
  { unfold getTracksOfKind.
    assert (tracks wa !! length (tracks w) = Some (fresh_track audio UserMedia)) as H0.
    { subst wa; unfold captured_in, camera_tracks; cbn [tracks].
      by rewrite list_lookup_middle. }
    assert (tracks wa !! S (length (tracks w)) = Some (fresh_track video UserMedia)) as H1.
    { subst wa; unfold captured_in, camera_tracks; cbn [tracks].
      rewrite lookup_app_r by lia.
      by replace (S (length (tracks w)) - length (tracks w)) with 1 by lia. }
    rewrite filter_cons_False by (unfold track_has_kind; by rewrite H0).
    rewrite filter_cons_True by (unfold track_has_kind; by rewrite H1).
    done. }
  rewrite replace_video_then. unfold camera_restored. fold wa.
  by unfold_handler.
Qed.

Lemma replace_video_allocated (t : nat) (w : World) (p : nat) :
  t < length (tracks w) → senders_allocated w p →
  senders_allocated (exec (replace_video (Some t)) w) p.
Proof.
  intros Ht Hal. unfold exec, replace_video, bind, find_video_sender, gets.
  destruct (_ ≫= _) as [[q i]|]; cbn; [|done].
  intros e. cbn. destruct (decide (q = p)) as [->|Hne].
  - rewrite list_lookup_alter_eq. destruct (pcs w !! p) as [e0|] eqn:He0; [|done].
    cbn. intros [= <-]. cbn. apply Forall_insert; [by apply Hal|].
    by intros t' [= <-].
  - rewrite list_lookup_alter_ne by done. apply Hal.
Qed.

Lemma kinds_kept_alter (f : MediaStreamTrack → MediaStreamTrack) (t : nat) (w : World) :
  (∀ tr, kind (f tr) = kind tr) → kinds_kept w (set_tracks (alter f t) w).
Proof.
  intros Hf u _. cbn. destruct (decide (t = u)) as [->|Hne].
  - rewrite list_lookup_alter_eq. destruct (tracks w !! u); cbn; [by rewrite Hf|done].
  - by rewrite list_lookup_alter_ne.
Qed.

Lemma screen_shared_spec (w : World) (p : nat) (x : option nat) (r : list (option nat)) :
  pcRef w = Some p → senders_allocated w p → video_senders w p = x :: r →
  let n := length (tracks w) in
  let w1 := screen_shared w in
  video_senders w1 p = Some n :: r ∧
  tracks w1 = tracks w ++ [with_onended (fresh_track video DisplayMedia)] ∧
  pcRef w1 = Some p ∧ mediaGranted w1 = mediaGranted w ∧
  senders_allocated w1 p ∧ localStreamRef w1 = localStreamRef w.
Proof.
  intros Hp Hal Hv. cbv zeta. unfold screen_shared.
  set (wa := captured_in DisplayMedia [fresh_track video DisplayMedia] w).
  assert (video_senders wa p = x :: r) as Hva.
  { rewrite <-Hv. apply video_senders_kept; [done|apply kinds_kept_captured|done]. }
  assert (senders_allocated wa p) as Hala.
  { eapply senders_allocated_kept; [| |exact Hal]; [done|]. cbn. rewrite length_app. lia. }
  assert (tracks wa !! length (tracks w) = Some (fresh_track video DisplayMedia)) as Hn
    by apply lookup_new_index.
  assert (track_has_kind wa video (length (tracks w)) = true) as Hk
    by (unfold track_has_kind; by rewrite Hn).
  assert (length (tracks w) < length (tracks wa)) as Hlt
    by (cbn; rewrite length_app; cbn; lia).
  pose proof (replace_video_spec _ wa _ _ _ Hp Hk Hva) as Hvb.
  pose proof (replace_video_allocated _ wa p Hlt Hala) as Halb.
  destruct (replace_video_frame (Some (length (tracks w))) wa)
    as (Htr & Hpr & Hls & _ & _ & Hmg & _ & _).
  set (wb := exec (replace_video (Some (length (tracks w)))) wa) in *.
  clearbody wb.
  set (wc := set_localVideoRef _ wb).
  split.
  { rewrite <-Hvb. apply (video_senders_kept wb); [done| |done].
    by apply (kinds_kept_alter with_onended _ wc). }
  split; [cbn; rewrite Htr; apply alter_new_index|].
  split; [cbn; by rewrite Hpr|].
  split; [cbn; by rewrite Hmg|].
  split; [|cbn; by rewrite Hls].
  eapply (senders_allocated_kept wb); [done| |done]. cbn. by rewrite length_alter.
Qed.

Lemma camera_restored_spec (w : World) (p : nat) (x : option nat) (r : list (option nat)) :
  pcRef w = Some p → senders_allocated w p → video_senders w p = x :: r →
  let n := length (tracks w) in
  let w1 := camera_restored w in
  video_senders w1 p = Some (S n) :: r ∧
  tracks w1 = tracks w ++ camera_tracks ∧
  pcRef w1 = Some p ∧
  localStreamRef w1 = Some [n; S n].
Proof.
  intros Hp Hal Hv. cbv zeta. unfold camera_restored.
  set (wa := captured_in UserMedia camera_tracks w).
  assert (video_senders wa p = x :: r) as Hva.
  { rewrite <-Hv. apply video_senders_kept; [done|apply kinds_kept_captured|done]. }
  assert (tracks wa !! S (length (tracks w)) = Some (fresh_track video UserMedia)) as Hn.
  { subst wa; unfold captured_in, camera_tracks; cbn [tracks].
    rewrite lookup_app_r by lia.
    by replace (S (length (tracks w)) - length (tracks w)) with 1 by lia. }
  assert (track_has_kind wa video (S (length (tracks w))) = true) as Hk
    by (unfold track_has_kind; by rewrite Hn).
  pose proof (replace_video_spec _ wa _ _ _ Hp Hk Hva) as Hvb.
  destruct (replace_video_frame (Some (S (length (tracks w)))) wa)
    as (Htr & Hpr & _).
  set (wb := exec (replace_video (Some (S (length (tracks w))))) wa) in *.
  clearbody wb.
  split; [exact Hvb|]. split; [exact Htr|]. split; [by cbn; rewrite Hpr|done].
Qed.

(** The browser ending a live track whose [onended] is set: the track is
    marked ended, then [stopScreenShare] runs. *)
Lemma track_ended_event_eq (w : World) (t : nat) (tr : MediaStreamTrack) :
  tracks w !! t = Some tr → readyState tr = live → onended tr = true →
  step w (track_ended t) = exec stopScreenShare (set_tracks (alter stopped t) w).
Proof.
  intros Ht Hl Ho. unfold step, exec, dispatch, end_track. unfold bind at 1.
  unfold gets at 1. rewrite Ht, Hl, Ho. done.
Qed.

(** C5, as stated, fails: [stopScreenShare] never stops the screen track.
    Start a call, share the screen, then run [stopScreenShare]: the screen
    track (number 2) is still live.  And with a connection that has no video
    sender (a [reconnect-offer] answered before any camera was started), the
    round trip attaches no video track at all. *)
Lemma stopScreenShare_leaves_screen_track_live :
  let w1 := run [click_startCall; click_startScreenShare] initial in
  let w2 := exec stopScreenShare w1 in
  let v1 := run [socket_receive (reconnect_offer (mkSdp sdp_offer 100 true));
                 click_startScreenShare] initial in
  let v2 := exec stopScreenShare v1 in
  tracks w1 !! 2 = Some (mkTrack video true live DisplayMedia true) ∧
  tracks w2 !! 2 = Some (mkTrack video true live DisplayMedia true) ∧
  video_senders w2 0 = [Some 4] ∧
  pcRef v2 = Some 0 ∧ pc_is_open v2 0 = true ∧ video_senders v2 0 = [].
Proof. by vm_compute. Qed.

(** C5, amended: when the current engine has exactly one video sender and
    capture is granted, [startScreenShare] followed by [stopScreenShare]
    leaves exactly one video sender, carrying the video track of a newly
    acquired camera stream, which becomes the held stream.  [stopScreenShare]
    leaves the screen track as it finds it: live when called directly, ended
    when it runs as that track's [onended], the browser having ended the
    track. *)
Theorem screen_share_round_trip (w : World) (p old : nat) :
  mediaGranted w = true →
  pcRef w = Some p →
  senders_allocated w p →
  video_senders w p = [Some old] →
  let n := length (tracks w) in
  let screen := mkTrack video true live DisplayMedia true in
  let w1 := step w click_startScreenShare in
  let w2 := exec stopScreenShare w1 in
  let w2' := step w1 (track_ended n) in
  video_senders w1 p = [Some n] ∧
  tracks w1 !! n = Some screen ∧
  video_senders w2 p = [Some (n + 2)] ∧
  tracks w2 !! (n + 2) = Some (fresh_track video UserMedia) ∧
  localStreamRef w2 = Some [n + 1; n + 2] ∧
  tracks w2 !! n = Some screen ∧
  video_senders w2' p = [Some (n + 2)] ∧
  tracks w2' !! (n + 2) = Some (fresh_track video UserMedia) ∧
  localStreamRef w2' = Some [n + 1; n + 2] ∧
  tracks w2' !! n = Some (stopped screen).
Proof.
  intros Hg Hp Hal Hv. cbv zeta.
  assert (step w click_startScreenShare = screen_shared w) as ->.
  { unfold step, exec, dispatch. by rewrite startScreenShare_eq. }
  destruct (screen_shared_spec w p _ _ Hp Hal Hv) as (Hv1 & Ht1 & Hp1 & Hg1 & Hal1 & _).
  set (w1 := screen_shared w) in *. clearbody w1.
  set (screen := mkTrack video true live DisplayMedia true).
  change (with_onended (fresh_track video DisplayMedia)) with screen in Ht1.
  assert (tracks w1 !! length (tracks w) = Some screen) as Hn1
    by (rewrite Ht1; apply lookup_new_index).
  assert (length (tracks w1) = S (length (tracks w))) as Hlen1
    by (rewrite Ht1, length_app; cbn; lia).
  replace (length (tracks w) + 1) with (length (tracks w1)) by lia.
  replace (length (tracks w) + 2) with (S (length (tracks w1))) by lia.
  split; [done|]. split; [done|].
  (* called directly *)
  assert (exec stopScreenShare w1 = camera_restored w1) as ->.
  { unfold exec. rewrite stopScreenShare_eq; [done|]. by rewrite Hg1. }
  destruct (camera_restored_spec w1 p _ _ Hp1 Hal1 Hv1) as (Hv2 & Ht2 & _ & Hs2).
  split; [done|].
  split.
  { rewrite Ht2. rewrite lookup_app_r by lia.
    by replace (S (length (tracks w1)) - length (tracks w1)) with 1 by lia. }
  split; [done|].
  split.
  { rewrite Ht2. rewrite lookup_app_l by lia. done. }
  (* as the screen track's onended *)
  rewrite (track_ended_event_eq w1 _ screen) by done.
  set (v := set_tracks (alter stopped (length (tracks w))) w1).
  assert (kinds_kept w1 v) as Hkv by (by apply kinds_kept_alter).
  assert (length (tracks v) = length (tracks w1)) as Hlenv by apply length_alter.
  assert (video_senders v p = [Some (length (tracks w))]) as Hvv.
  { rewrite <-Hv1. by apply video_senders_kept. }
  assert (senders_allocated v p) as Halv.
  { eapply (senders_allocated_kept w1); [done| |done]. lia. }
  assert (exec stopScreenShare v = camera_restored v) as ->.
  { unfold exec. rewrite stopScreenShare_eq; [done|]. cbn. by rewrite Hg1. }
  destruct (camera_restored_spec v p _ _ Hp1 Halv Hvv) as (Hv3 & Ht3 & _ & Hs3).
  rewrite Hlenv in Hv3, Hs3.
  split; [done|].
  split.
  { rewrite Ht3. rewrite lookup_app_r by lia. rewrite Hlenv.
    by replace (S (length (tracks w1)) - length (tracks w1)) with 1 by lia. }
  split; [done|].
  rewrite Ht3. rewrite lookup_app_l by lia.
  cbn. by rewrite list_lookup_alter_eq, Hn1.
Qed.

Lemma screen_share_round_trip_witness :
  let w := run [click_startCall] initial in
  mediaGranted w = true ∧ pcRef w = Some 0 ∧ video_senders w 0 = [Some 1] ∧
  let w1 := step w click_startScreenShare in
  video_senders (exec stopScreenShare w1) 0 = [Some 4] ∧
  video_senders (step w1 (track_ended 2)) 0 = [Some 4] ∧
  tracks (step w1 (track_ended 2)) !! 2 = Some (mkTrack video true ended DisplayMedia true).
Proof.
  cbv zeta. split; [reflexivity|]. split; [reflexivity|]. split; [reflexivity|].
  assert (senders_allocated (run [click_startCall] initial) 0) as Hal.
  { intros e He. vm_compute in He. injection He as <-.
    apply Forall_cons; split; [intros t [= <-]; vm_compute; lia|].
    apply Forall_cons; split; [intros t [= <-]; vm_compute; lia|].
    apply Forall_nil_2. }
  destruct (screen_share_round_trip (run [click_startCall] initial) 0 1
              eq_refl eq_refl Hal eq_refl)
    as (_ & _ & H2 & _ & _ & _ & H2' & _ & _ & Hscreen).
  split; [exact H2|]. split; [exact H2'|exact Hscreen].
Defined.

(** ** Reachable worlds are well formed *)

Lemma wf_initial : wf initial.
Proof. split; [done| |done]. intros p e He. by destruct p. Qed.

(** Nothing [wf] looks at has changed, allocation apart. *)
Lemma wf_frame (w w' : World) :
  pcs w' = pcs w → pcRef w' = pcRef w → localStreamRef w' = localStreamRef w →
  length (tracks w) ≤ length (tracks w') →
  wf w → wf w'.
Proof.
  intros Hpcs Hp Hs Hlen [Ha Hb Hc]. split.
  - intros p. rewrite Hp. unfold pc_is_open. rewrite Hpcs. apply Ha.
  - intros p. by apply (senders_allocated_kept w).
  - intros s. rewrite Hs. intros Hs'. eapply Forall_impl; [by apply Hc|].
    cbn. lia.
Qed.

(** An engine method that leaves [isClosed] and the senders alone. *)
Lemma wf_alter (f : RTCPeerConnection → RTCPeerConnection) (p : nat) (w : World) :
  (∀ e, isClosed (f e) = isClosed e) → (∀ e, senders (f e) = senders e) →
  wf w → wf (set_pcs (alter f p) w).
Proof.
  intros Hcl Hse [Ha Hb Hc]. split; [| |done].
  - intros q Hq. specialize (Ha q Hq). unfold pc_is_open in *. cbn.
    destruct (decide (p = q)) as [->|Hne].
    + rewrite list_lookup_alter_eq. destruct (pcs w !! q); [|done]. cbn. by rewrite Hcl.
    + by rewrite list_lookup_alter_ne.
  - intros q e. cbn. destruct (decide (p = q)) as [->|Hne].
    + rewrite list_lookup_alter_eq. destruct (pcs w !! q) as [e0|] eqn:He0; [|done].
      cbn. intros [= <-]. rewrite Hse. by apply (Hb q).
    + rewrite list_lookup_alter_ne by done. apply (Hb q).
Qed.

Lemma close_current_senders (w : World) (p : nat) (e : RTCPeerConnection) :
  close_current w !! p = Some e →
  ∃ e0, pcs w !! p = Some e0 ∧ senders e = senders e0.
Proof.
  unfold close_current. destruct (pcRef w) as [q|]; [|by eauto].
  destruct (decide (q = p)) as [->|Hne].
  - rewrite list_lookup_alter_eq. destruct (pcs w !! p) as [e0|]; [|done].
    cbn. intros [= <-]. by eauto.
  - rewrite list_lookup_alter_ne by done. by eauto.
Qed.

(** A world whose store is [store] followed by one new open engine, built
    from the held stream and made current. *)
Lemma wf_new_engine (w w' : World) (store : list RTCPeerConnection) (e : RTCPeerConnection) :
  wf w →
  (∀ p x, store !! p = Some x → ∃ y, pcs w !! p = Some y ∧ senders x = senders y) →
  pcs w' = store ++ [e] →
  isClosed e = false →
  senders e = Some <$> default [] (localStreamRef w) →
  pcRef w' = Some (length store) →
  localStreamRef w' = localStreamRef w →
  tracks w' = tracks w →
  wf w'.
Proof.
  intros [Ha Hb Hc] Hstore Hpcs Hcl Hse Hp Hs Htr. split.
  - intros p. rewrite Hp. intros [= <-]. unfold pc_is_open.
    by rewrite Hpcs, lookup_new_index, Hcl.
  - intros p x. rewrite Hpcs, Htr. intros Hx.
    apply lookup_app_Some in Hx as [Hx|[_ Hx]].
    + destruct (Hstore p x Hx) as (y & Hy & ->). by apply (Hb p).
    + apply list_lookup_singleton_Some in Hx as [_ <-]. rewrite Hse.
      destruct (localStreamRef w) as [s|]; cbn; [|done].
      apply Forall_fmap. eapply Forall_impl; [by apply Hc|].
      cbn. by intros t Ht t' [= <-].
  - intros s. rewrite Hs, Htr. apply Hc.
Qed.

(** A world whose store is [close_current w], with no current engine. *)
Lemma wf_no_engine (w w' : World) :
  wf w →
  pcs w' = close_current w → pcRef w' = None →
  (localStreamRef w' = localStreamRef w ∨ localStreamRef w' = None) →
  length (tracks w') = length (tracks w) →
  wf w'.
Proof.
  intros [Ha Hb Hc] Hpcs Hp Hs Hlen. split.
  - intros p. by rewrite Hp.
  - intros p x. rewrite Hpcs, Hlen. intros Hx.
    destruct (close_current_senders w p x Hx) as (y & Hy & ->). by apply (Hb p).
  - intros s. rewrite Hlen. destruct Hs as [-> | ->]; [apply Hc|done].
Qed.

Lemma wf_camera_acquired (w : World) : wf w → wf (camera_acquired w).
Proof.
  intros [Ha Hb Hc]. split; [done| |].
  - intros p. apply (senders_allocated_kept w); [done| |done].
    cbn. rewrite length_app. lia.
  - intros s [= <-]. cbn. rewrite length_app. cbn.
    repeat constructor; lia.
Qed.

Lemma wf_replace_video (t : nat) (w : World) :
  t < length (tracks w) → wf w → wf (exec (replace_video (Some t)) w).
Proof.
  intros Ht Hw. split.
  - destruct Hw as [Ha _ _]. unfold exec, replace_video, bind, find_video_sender, gets.
    destruct (_ ≫= _) as [[q i]|]; cbn; [|done].
    intros p Hp. specialize (Ha p Hp). unfold pc_is_open in *. cbn.
    destruct (decide (q = p)) as [->|Hne].
    + rewrite list_lookup_alter_eq. by destruct (pcs w !! p).
    + by rewrite list_lookup_alter_ne.
  - intros p. apply replace_video_allocated; [done|]. apply Hw.
  - destruct (replace_video_frame (Some t) w) as (-> & _ & -> & _). apply Hw.
Qed.

Lemma capture_media_denied o c w :
  mediaGranted w = false →
  capture_media o c w = (Throw, set_requests (λ l, l ++ [o]) w).
Proof. intros Hg. unfold capture_media, bind, modify, gets, throw; cbn. by rewrite Hg. Qed.

Lemma wf_startCamera (w : World) : wf w → wf (exec startCamera w).
Proof.
  intros Hw. unfold exec. rewrite startCamera_eq.
  destruct (localStreamRef w); [done|].
  destruct (mediaGranted w); cbn; [by apply wf_camera_acquired|].
  by apply (wf_frame w).
Qed.

Lemma wf_offering (w : World) : wf w → wf (offering w).
Proof. intros Hw. eapply (wf_new_engine w _ (pcs w)); by eauto. Qed.

Lemma wf_answering reply o (w : World) :
  wf w → wf (answering reply o (pcs w) w) ∧ wf (answering reply o (close_current w) w).
Proof.
  intros Hw. split.
  - eapply (wf_new_engine w _ (pcs w)); by eauto.
  - eapply (wf_new_engine w _ (close_current w)); try done.
    + apply close_current_senders.
    + cbn. by rewrite length_close_current.
Qed.

Lemma wf_reconnected (w : World) : wf w → wf (reconnected w).
Proof.
  intros Hw. eapply (wf_new_engine w _ (close_current w)); try done.
  - apply close_current_senders.
  - cbn. by rewrite length_close_current.
Qed.

Lemma wf_with_pcRef_method (f : RTCPeerConnection → RTCPeerConnection) (w : World) :
  (∀ e, isClosed (f e) = isClosed e) → (∀ e, senders (f e) = senders e) →
  wf w → wf (exec (with_pcRef (λ pc, pc_method pc f)) w).
Proof.
  intros Hcl Hse Hw. unfold exec, with_pcRef, pc_method, bind, gets.
  destruct (pcRef w) as [p|]; [|done].
  destruct (pcs w !! p) as [e|]; [|done].
  destruct (isClosed e); [done|]. by apply wf_alter.
Qed.

Lemma wf_screen_shared (w : World) : wf w → wf (screen_shared w).
Proof.
  intros Hw. unfold screen_shared.
  set (wa := captured_in DisplayMedia [fresh_track video DisplayMedia] w).
  assert (wf wa) as Hwa.
  { apply (wf_frame w); try done. cbn. rewrite length_app. lia. }
  assert (length (tracks w) < length (tracks wa)) as Hlt
    by (cbn; rewrite length_app; cbn; lia).
  pose proof (wf_replace_video _ _ Hlt Hwa) as Hwb.
  set (wb := exec (replace_video (Some (length (tracks w)))) wa) in *. clearbody wb.
  apply (wf_frame wb); try done. cbn. by rewrite length_alter.
Qed.

Lemma wf_camera_restored (w : World) : wf w → wf (camera_restored w).
Proof.
  intros Hw. unfold camera_restored.
  set (wa := captured_in UserMedia camera_tracks w).
  assert (wf wa) as Hwa.
  { apply (wf_frame w); try done. cbn. rewrite length_app. lia. }
  assert (S (length (tracks w)) < length (tracks wa)) as Hlt
    by (cbn; rewrite length_app; cbn; lia).
  pose proof (wf_replace_video _ _ Hlt Hwa) as Hwb.
  destruct (replace_video_frame (Some (S (length (tracks w)))) wa) as (Htr & _).
  set (wb := exec (replace_video (Some (S (length (tracks w))))) wa) in *. clearbody wb.
  destruct Hwb as [Ha Hb Hc]. split; [done|done|].
  intros s [= <-]. cbn. rewrite Htr. cbn. rewrite length_app. cbn.
  repeat constructor; lia.
Qed.

Lemma wf_stopScreenShare (w : World) : wf w → wf (exec stopScreenShare w).
Proof.
  intros Hw. destruct (mediaGranted w) eqn:Hg; unfold exec.
  - rewrite stopScreenShare_eq by done. by apply wf_camera_restored.
  - unfold stopScreenShare, getUserMedia. unfold bind at 1.
    rewrite capture_media_denied by done. by apply (wf_frame w).
Qed.

Lemma wf_reconnectCall (w : World) : wf w → wf (exec reconnectCall w).
Proof.
  intros Hw. unfold exec. rewrite reconnectCall_eq.
  destruct (localStreamRef w); [by apply wf_reconnected|done].
Qed.

Theorem wf_step (w : World) (ev : event) : wf w → wf (step w ev).
Proof.
  intros Hw. unfold step. destruct ev as [| | | | |m|p x|p c|p st|t|b]; cbn [dispatch].
  - (* startCall *)
    unfold exec. rewrite startCall_eq. pose proof (wf_startCamera w Hw) as H1.
    unfold exec in H1. destruct (startCamera w) as [[[]|] w1]; [|done].
    by apply wf_offering.
  - (* toggleAudio *)
    unfold exec, toggleAudio. rewrite toggleEnabled_eq.
    destruct (held_track audio w); [|done].
    apply (wf_frame w); try done. cbn. by rewrite length_alter.
  - (* toggleVideo *)
    unfold exec, toggleVideo. rewrite toggleEnabled_eq.
    destruct (held_track video w); [|done].
    apply (wf_frame w); try done. cbn. by rewrite length_alter.
  - (* startScreenShare *)
    unfold exec. destruct (mediaGranted w) eqn:Hg.
    + rewrite startScreenShare_eq by done. by apply wf_screen_shared.
    + unfold startScreenShare, getDisplayMedia. unfold bind at 1.
      rewrite capture_media_denied by done. by apply (wf_frame w).
  - (* endCall *)
    unfold exec. rewrite endCall_eq. cbn [snd].
    apply (wf_no_engine w); try done; [by right|]. cbn. apply length_stop_all.
  - (* socket messages *)
    destruct m as [o|a|c|o|a|].
    + unfold exec. rewrite on_offer_eq. pose proof (wf_startCamera w Hw) as H1.
      unfold exec in H1. destruct (startCamera w) as [[[]|] w1]; [|done].
      by apply wf_answering.
    + by apply wf_with_pcRef_method.
    + by apply wf_with_pcRef_method.
    + unfold exec. rewrite on_reconnect_offer_eq. by apply wf_answering.
    + by apply wf_with_pcRef_method.
    + unfold exec. rewrite on_call_ended_eq. cbn [snd].
      apply (wf_no_engine w); try done. by left.
  - (* ontrack *)
    unfold exec, bind, gets. destruct (pc_is_open w p); [|done].
    by apply (wf_frame w).
  - (* onicecandidate *)
    unfold exec, bind, gets. destruct (pc_is_open w p); [|done].
    destruct c; [|done]. by apply (wf_frame w).
  - (* onconnectionstatechange *)
    unfold exec. unfold bind at 1. unfold gets at 1.
    destruct (pc_is_open w p && negb (bool_decide (st = cs_closed))); [|done].
    cbn [when]. unfold bind at 1. unfold report_connectionState, modify.
    set (w0 := set_pcs _ w). assert (wf w0) as Hw0 by (by apply wf_alter).
    clearbody w0. unfold onconnectionstatechange, bind, gets.
    destruct (pcs w0 !! p) as [e|]; [|done].
    destruct (needs_reconnect (connectionState e)); [|done].
    by apply wf_reconnectCall.
  - (* a track ended by the browser *)
    unfold exec, end_track. unfold bind at 1. unfold gets at 1.
    destruct (tracks w !! t) as [tr|]; [|done].
    destruct (readyState tr); [|done].
    unfold bind at 1. unfold track_stop, update_track, modify.
    set (w0 := set_tracks _ w).
    assert (wf w0) as Hw0.
    { apply (wf_frame w); try done. cbn. by rewrite length_alter. }
    clearbody w0. destruct (onended tr); [|done].
    by apply wf_stopScreenShare.
  - (* permission *)
    by apply (wf_frame w).
Qed.

Theorem reachable_wf (w : World) : reachable w → wf w.
Proof.
  intros [evs ->]. induction evs as [|ev evs IH] using rev_ind.
  - apply wf_initial.
  - unfold run. rewrite foldl_snoc. by apply wf_step.
Qed.

(** X5: in a reachable world the engine [pcRef] refers to is there and open,
    so no method called through [pcRef] is ever refused: every handler that
    closes an engine clears [pcRef] at once. *)
Corollary reachable_current_engine_open (w : World) (p : nat) :
  reachable w → pcRef w = Some p →
  ∃ e, pcs w !! p = Some e ∧ isClosed e = false.
Proof.
  intros Hr Hp. pose proof (wf_pcRef w (reachable_wf w Hr) p Hp) as Ho.
  unfold pc_is_open in Ho. destruct (pcs w !! p) as [e|]; [|done].
  exists e. split; [done|]. by destruct (isClosed e).
Qed.

Lemma reachable_current_engine_open_witness :
  let w := run [click_startCall; pc_connectionstate 0 cs_failed] initial in
  reachable w ∧ pcRef w = Some 1 ∧
  ∃ e, pcs w !! 1 = Some e ∧ isClosed e = false.
Proof.
  cbv zeta.
  assert (reachable (run [click_startCall; pc_connectionstate 0 cs_failed] initial)) as Hr
    by (by eexists).
  split; [exact Hr|]. split; [vm_compute; reflexivity|].
  apply reachable_current_engine_open; [exact Hr|vm_compute; reflexivity].
Defined.

(** * Further properties of the component *)

(** ** Handlers as moves along a preorder on worlds *)

Section moves.
Context (R : World → World → Prop) `{!PreOrder R}.

Lemma moves_ret {A} (a : A) : moves R (ret a).
Proof. by intros w. Qed.

Lemma moves_throw {A} : moves R (@throw A).
Proof. by intros w. Qed.

Lemma moves_gets {A} (f : World → A) : moves R (gets f).
Proof. by intros w. Qed.

Lemma moves_modify (f : World → World) : (∀ w, R w (f w)) → moves R (modify f).
Proof. intros Hf w. apply Hf. Qed.

Lemma moves_bind {A B} (m : M A) (k : A → M B) :
  moves R m → (∀ a, moves R (k a)) → moves R (bind m k).
Proof.
  intros Hm Hk w. unfold bind. specialize (Hm w).
  destruct (m w) as [[a|] w1]; [|done]. cbn in Hm. etrans; [exact Hm|apply Hk].
Qed.

Lemma moves_forEach {A} (xs : list A) (f : A → M unit) :
  (∀ x, moves R (f x)) → moves R (forEach xs f).
Proof.
  intros Hf. induction xs as [|x xs IH]; [apply moves_ret|].
  cbn. apply moves_bind; [apply Hf|by intros _].
Qed.

Lemma moves_when (c : bool) (m : M unit) : moves R m → moves R (when c m).
Proof. intros Hm. destruct c; [done|apply moves_ret]. Qed.

Lemma moves_run (evs : list event) :
  (∀ ev, moves R (dispatch ev)) → ∀ w, R w (run evs w).
Proof.
  intros Hstep. induction evs as [|ev evs IH]; intros w; [done|].
  cbn. etrans; [apply (Hstep ev)|apply IH].
Qed.
End moves.

Ltac moves_step :=
  lazymatch goal with
  | |- moves ?R (ret _) => apply (moves_ret R)
  | |- moves ?R throw => apply (moves_throw R)
  | |- moves ?R (gets _) => apply (moves_gets R)
  | |- moves ?R (bind _ _) => apply (moves_bind R); [|intros ?]
  | |- moves ?R (forEach _ _) => apply (moves_forEach R); intros ?
  | |- moves ?R (when _ _) => apply (moves_when R)
  | |- moves ?R (modify _) => apply (moves_modify R); intros ?
  | |- moves _ (match ?x with _ => _ end) => destruct x
  end.

(** ** Tracks are never removed, retyped or revived *)

#[local] Instance tracks_kept_preorder : PreOrder tracks_kept.
Proof.
  split.
  - intros w t tr Ht. by exists tr.
  - intros w1 w2 w3 H12 H23 t tr Ht.
    destruct (H12 t tr Ht) as (tr2 & Ht2 & Hk2 & Ho2 & He2).
    destruct (H23 t tr2 Ht2) as (tr3 & Ht3 & Hk3 & Ho3 & He3).
    exists tr3. split; [done|]. split; [congruence|]. split; [congruence|]. by auto.
Qed.

Lemma tracks_kept_same (w w' : World) : tracks w' = tracks w → tracks_kept w w'.
Proof. intros Heq t tr Ht. exists tr. by rewrite Heq. Qed.

Lemma tracks_kept_grow (ts : list MediaStreamTrack) (w : World) :
  tracks_kept w (set_tracks (λ l, l ++ ts) w).
Proof. intros t tr Ht. exists tr. cbn. by rewrite (lookup_app_l_Some _ _ _ _ Ht). Qed.

Lemma tracks_kept_alter (f : MediaStreamTrack → MediaStreamTrack) (t : nat) (w : World) :
  (∀ tr, kind (f tr) = kind tr ∧ origin (f tr) = origin tr ∧
         (readyState tr = ended → readyState (f tr) = ended)) →
  tracks_kept w (set_tracks (alter f t) w).
Proof.
  intros Hf u tr Hu. cbn. destruct (decide (t = u)) as [->|Hne].
  - exists (f tr). rewrite list_lookup_alter_eq, Hu. split; [done|]. apply Hf.
  - exists tr. by rewrite list_lookup_alter_ne.
Qed.

Lemma tracks_kept_dispatch (ev : event) : moves tracks_kept (dispatch ev).
Proof.
  destruct ev as [| | | | |m| | | | |]; try destruct m.
  all: repeat (progress (unfold_component; try unfold endCall; repeat moves_step)).
  all: try (by apply tracks_kept_same).
  all: try apply tracks_kept_grow.
  all: by apply tracks_kept_alter.
Qed.

(** ** Which event sends which message *)

#[local] Instance same_outbox_preorder : PreOrder same_outbox.
Proof.
  split; [done|]. intros w1 w2 w3 H12 H23. unfold same_outbox in *. congruence.
Qed.

Ltac silent_handler :=
  repeat (progress (unfold_component; repeat moves_step)); done.

Lemma toggleEnabled_silent k : moves same_outbox (toggleEnabled k).
Proof. silent_handler. Qed.

Lemma startScreenShare_silent : moves same_outbox startScreenShare.
Proof. silent_handler. Qed.

Lemma stopScreenShare_silent : moves same_outbox stopScreenShare.
Proof. silent_handler. Qed.

Lemma end_track_silent t : moves same_outbox (end_track t).
Proof. silent_handler. Qed.

Lemma startCamera_silent : moves same_outbox startCamera.
Proof. silent_handler. Qed.

Lemma with_pcRef_method_silent f : moves same_outbox (with_pcRef (λ pc, pc_method pc f)).
Proof. silent_handler. Qed.

(** A connection-state report in general: ignored for a closed or unknown
    engine, otherwise recorded, and followed by [reconnectCall] when the state
    is [disconnected] or [failed]. *)
Lemma connectionstate_event_cases (w : World) (p : nat) (st : connection_state) :
  step w (pc_connectionstate p st) =
    if pc_is_open w p && negb (bool_decide (st = cs_closed))
    then if needs_reconnect st
         then exec reconnectCall (exec (report_connectionState p st) w)
         else exec (report_connectionState p st) w
    else w.
Proof.
  unfold step, exec, dispatch. unfold bind at 1. unfold gets at 1. cbn beta iota.
  unfold pc_is_open.
  destruct (pcs w !! p) as [e|] eqn:He; [|done].
  destruct (negb (isClosed e) && negb (bool_decide (st = cs_closed))); [|done].
  cbn [when]. unfold bind at 1. unfold report_connectionState, modify. cbn beta iota.
  unfold onconnectionstatechange, bind, gets. cbn -[reconnectCall].
  rewrite list_lookup_alter_eq, He. cbn -[reconnectCall].
  by destruct (needs_reconnect st).
Qed.

Lemma message_accounting (w : World) (ev : event) :
  emitted (step w ev) = emitted w ∨
  ∃ m, emitted (step w ev) = emitted w ++ [m] ∧ accounts_for ev m = true.
Proof.
  destruct ev as [| | | | |m|p x|p c|p st|t|b].
  1-8,10-11: unfold step; cbn [dispatch].
  - pose proof (startCamera_silent w) as Hc. unfold same_outbox in Hc.
    unfold exec. rewrite startCall_eq.
    destruct (startCamera w) as [[[]|] w1]; cbn in *; [|by left].
    right. eexists. by rewrite Hc.
  - left. apply (toggleEnabled_silent audio w).
  - left. apply (toggleEnabled_silent video w).
  - left. apply (startScreenShare_silent w).
  - right. exists call_ended. unfold exec. by rewrite endCall_eq.
  - destruct m as [o|a|c|o|a|].
    + pose proof (startCamera_silent w) as Hc. unfold same_outbox in Hc.
      unfold exec. rewrite on_offer_eq.
      destruct (startCamera w) as [[[]|] w1]; cbn in *; [|by left].
      right. eexists. by rewrite Hc.
    + left. apply (with_pcRef_method_silent _ w).
    + left. apply (with_pcRef_method_silent _ w).
    + right. unfold exec. rewrite on_reconnect_offer_eq. by eexists.
    + left. apply (with_pcRef_method_silent _ w).
    + left. unfold exec. by rewrite on_call_ended_eq.
  - left. unfold exec, bind, gets. by destruct (pc_is_open w p).
  - unfold exec, bind, gets. destruct (pc_is_open w p); [|by left].
    destruct c as [c|]; [|by left]. right. exists (ice_candidate c).
    split; [done|]. cbn. by rewrite bool_decide_eq_true_2.
  - left. apply (end_track_silent t w).
  - by left.
  - rewrite connectionstate_event_cases.
    destruct (pc_is_open w p && negb (bool_decide (st = cs_closed))); [|by left].
    destruct (needs_reconnect st) eqn:Hst; [|by left].
    set (w0 := exec (report_connectionState p st) w).
    assert (emitted w0 = emitted w) as Hem by done. clearbody w0.
    unfold exec. rewrite reconnectCall_eq. cbn [snd].
    destruct (localStreamRef w0); [|by left].
    right. exists (reconnect_offer (restart_offer w0)).
    split; [by unfold reconnected; cbn [emitted]; rewrite Hem|]. cbn. by rewrite Hst.
Qed.

(** X2: every event sends at most one message, and only the message that
    belongs to it: [offer] on [startCall], [call-ended] on [endCall], [answer]
    to an [offer], [reconnect-answer] to a [reconnect-offer], the engine's
    candidate on [onicecandidate], an ICE-restart [reconnect-offer] on a
    [disconnected] or [failed] report; everything else sends nothing. *)
Theorem every_message_accounted_for (w : World) (ev : event) :
  emitted (step w ev) = emitted w ∨
  ∃ m, emitted (step w ev) = emitted w ++ [m] ∧ accounts_for ev m = true.
Proof. apply message_accounting. Qed.

Lemma count_call_ended_step (w : World) (ev : event) :
  length (filter (λ m, is_call_ended m = true) (emitted (step w ev))) =
  length (filter (λ m, is_call_ended m = true) (emitted w)) +
  (if is_click_endCall ev then 1 else 0).
Proof.
  destruct (decide (is_click_endCall ev = true)) as [Hev|Hev].
  - destruct ev; try done. unfold step, exec; cbn [dispatch]. rewrite endCall_eq. cbn.
    rewrite filter_app, length_app. done.
  - apply not_true_is_false in Hev. rewrite Hev.
    destruct (message_accounting w ev) as [->|(m & -> & Hm)]; [lia|].
    rewrite filter_app, length_app.
    rewrite filter_cons_False; [cbn; lia|].
    destruct ev as [| | | | |[]| |? []| | |], m; try done.
Qed.

(** X3: over any run, the number of [call-ended] messages sent is the number
    of [endCall] clicks: one per click, and none for any other reason, a
    received [call-ended] included. *)
Theorem call_ended_sent_once_per_endCall (evs : list event) (w : World) :
  length (filter (λ m, is_call_ended m = true) (emitted (run evs w))) =
  length (filter (λ m, is_call_ended m = true) (emitted w)) +
  length (filter (λ ev, is_click_endCall ev = true) evs).
Proof.
  revert w. induction evs as [|ev evs IH]; intros w; [cbn; lia|].
  cbn [run foldl]. fold (run evs (step w ev)). rewrite IH, count_call_ended_step.
  destruct (is_click_endCall ev) eqn:Hev.
  - rewrite filter_cons_True by done. cbn. lia.
  - rewrite filter_cons_False by (by rewrite Hev). lia.
Qed.

(** ** When there is only one open engine *)

#[local] Instance same_engines_preorder : PreOrder same_engines.
Proof.
  split; [done|]. intros w1 w2 w3 [Hp12 Ho12] [Hp23 Ho23]. split; [congruence|].
  intros p. by rewrite Ho23, Ho12.
Qed.


Lemma same_engines_alter (f : RTCPeerConnection → RTCPeerConnection) (p : nat) (w : World) :
  (∀ e, isClosed (f e) = isClosed e) → same_engines w (set_pcs (alter f p) w).
Proof.
  intros Hf. split; [done|]. intros q. unfold pc_is_open. cbn.
  destruct (decide (p = q)) as [->|Hne].
  - rewrite list_lookup_alter_eq. destruct (pcs w !! q); [|done]. cbn. by rewrite Hf.
  - by rewrite list_lookup_alter_ne.
Qed.














(** ** Capture refused *)

(** X6: with no stream held and the camera refused, [startCall] and the
    [offer] handler stop at [startCamera]: no engine is created, nothing is
    sent and no reference changes; only the request is on record.  Nothing
    is left half done, so a later [startCall], once the camera is granted,
    goes through as from the start. *)
Theorem camera_denied_creates_no_engine (w : World) (o : RTCSessionDescription) :
  localStreamRef w = None →
  mediaGranted w = false →
  let w' := set_requests (λ l, l ++ [UserMedia]) w in
  startCall w = (Throw, w') ∧
  socket_on (offer o) w = (Throw, w') ∧
  let w2 := run [permission true; click_startCall] w' in
  emitted w2 = emitted w ++ [offer (mkSdp sdp_offer (length (pcs w)) false)] ∧
  localStreamRef w2 = Some [length (tracks w); S (length (tracks w))] ∧
  pcRef w2 = Some (length (pcs w)).
Proof.
  intros Hs Hg. cbv zeta.
  split; [by rewrite startCall_eq, startCamera_eq, Hs, Hg|].
  split; [by rewrite on_offer_eq, startCamera_eq, Hs, Hg|].
  unfold run; cbn [foldl].
  change (step (set_requests (λ l, l ++ [UserMedia]) w) (permission true))
    with (set_mediaGranted true (set_requests (λ l, l ++ [UserMedia]) w)).
  unfold step, exec; cbn [dispatch].
  rewrite startCall_eq, startCamera_eq. cbn. by rewrite Hs.
Qed.

Lemma camera_denied_creates_no_engine_witness :
  let w := run [permission false] initial in
  let o := mkSdp sdp_offer 100 false in
  localStreamRef w = None ∧ mediaGranted w = false ∧
  let w' := set_requests (λ l, l ++ [UserMedia]) w in
  startCall w = (Throw, w') ∧
  socket_on (offer o) w = (Throw, w') ∧
  let w2 := run [permission true; click_startCall] w' in
  emitted w2 = emitted w ++ [offer (mkSdp sdp_offer (length (pcs w)) false)] ∧
  localStreamRef w2 = Some [length (tracks w); S (length (tracks w))] ∧
  pcRef w2 = Some (length (pcs w)).
Proof.
  split; [vm_compute; reflexivity|]. split; [vm_compute; reflexivity|].
  apply (camera_denied_creates_no_engine (run [permission false] initial)
           (mkSdp sdp_offer 100 false)); vm_compute; reflexivity.
Defined.

(** X7: when the browser ends a shared screen track and the camera is then
    refused, [stopScreenShare] stops at the capture request: the track is
    ended and the request is on record, but the engine, its senders (the
    ended screen track included) and the held stream are as before. *)
Theorem screen_track_ended_camera_denied (w : World) (t : nat) (tr : MediaStreamTrack) :
  tracks w !! t = Some tr → readyState tr = live → onended tr = true →
  mediaGranted w = false →
  step w (track_ended t) =
    set_requests (λ l, l ++ [UserMedia]) (set_tracks (alter stopped t) w).
Proof.
  intros Ht Hl Ho Hg. rewrite (track_ended_event_eq w t tr) by done.
  unfold exec, stopScreenShare, getUserMedia. unfold bind at 1.
  by rewrite capture_media_denied.
Qed.

Lemma screen_track_ended_camera_denied_witness :
  let w := run [click_startCall; click_startScreenShare; permission false] initial in
  tracks w !! 2 = Some (mkTrack video true live DisplayMedia true) ∧
  mediaGranted w = false ∧
  step w (track_ended 2) =
    set_requests (λ l, l ++ [UserMedia]) (set_tracks (alter stopped 2) w).
Proof.
  split; [vm_compute; reflexivity|]. split; [vm_compute; reflexivity|].
  apply (screen_track_ended_camera_denied _ 2 (mkTrack video true live DisplayMedia true));
    vm_compute; reflexivity.
Defined.

(** ** The remaining socket handlers *)


(** ** Ending twice *)

Lemma show_None_twice v : show None (show None v) = show None v.
Proof. by destruct v. Qed.

(** X10: [endCall] is idempotent up to the message it sends: a second
    [endCall] sends [call-ended] again and changes nothing else. *)
Theorem endCall_twice (w : World) :
  exec endCall (exec endCall w) =
    set_emitted (λ l, l ++ [call_ended]) (exec endCall w).
Proof.
  unfold exec. rewrite !endCall_eq. cbn [snd].
  unfold set_emitted, close_current; cbn. by rewrite !show_None_twice.
Qed.

(** ** What [stopScreenShare] leaves behind *)

Lemma camera_restored_frame (w : World) :
  let n := length (tracks w) in
  tracks (camera_restored w) = tracks w ++ camera_tracks ∧
  localStreamRef (camera_restored w) = Some [n; S n] ∧
  pcRef (camera_restored w) = pcRef w ∧
  emitted (camera_restored w) = emitted w.
Proof.
  cbv zeta. unfold camera_restored.
  destruct (replace_video_frame (Some (S (length (tracks w))))
              (captured_in UserMedia camera_tracks w))
    as (Htr & Hp & _ & Hem & _).
  cbn. by rewrite Htr, Hp, Hem.
Qed.

Lemma stop_all_elsewhere (s : MediaStream) (ts : list MediaStreamTrack) (t : nat) :
  t ∉ s → stop_all s ts !! t = ts !! t.
Proof.
  unfold stop_all. revert ts. induction s as [|u s IH]; intros ts Hnot; [done|].
  apply not_elem_of_cons in Hnot as [Hne Hnot]. cbn.
  rewrite IH by done. by rewrite list_lookup_alter_ne.
Qed.

(** X11: [stopScreenShare] replaces the held stream by the new camera stream
    without stopping the tracks of the stream held until then, which no
    reference reaches any more: they are unchanged, and a following [endCall]
    does not stop them either. *)
Theorem stopScreenShare_orphans_held_stream (w : World) (s : MediaStream) (t : nat) :
  reachable w → mediaGranted w = true →
  localStreamRef w = Some s → t ∈ s →
  let n := length (tracks w) in
  let w1 := exec stopScreenShare w in
  localStreamRef w1 = Some [n; S n] ∧ t < n ∧
  tracks w1 !! t = tracks w !! t ∧
  tracks (exec endCall w1) !! t = tracks w !! t.
Proof.
  intros Hr Hg Hs Hin. cbv zeta.
  pose proof (wf_stream w (reachable_wf w Hr) s Hs) as Hall.
  assert (t < length (tracks w)) as Hlt.
  { rewrite Forall_forall in Hall. by apply Hall. }
  unfold exec. rewrite stopScreenShare_eq by done. cbn [snd].
  destruct (camera_restored_frame w) as (Htr & Hls & _).
  split; [done|]. split; [done|].
  assert (tracks (camera_restored w) !! t = tracks w !! t) as H1
    by (rewrite Htr; by apply lookup_app_l).
  split; [done|].
  rewrite endCall_eq. cbn [snd tracks]. rewrite Hls. cbn [default].
  rewrite stop_all_elsewhere; [done|].
  intros Hbad. repeat (apply elem_of_cons in Hbad as [Hbad|Hbad]; [lia|]).
  by apply elem_of_nil in Hbad.
Qed.

Lemma stopScreenShare_orphans_held_stream_witness :
  let w := run [click_startCall; click_startScreenShare] initial in
  reachable w ∧ mediaGranted w = true ∧ localStreamRef w = Some [0; 1] ∧ 1 ∈ [0; 1] ∧
  let w1 := exec stopScreenShare w in
  localStreamRef w1 = Some [3; S 3] ∧ 1 < 3 ∧
  tracks w1 !! 1 = tracks w !! 1 ∧
  tracks (exec endCall w1) !! 1 = tracks w !! 1.
Proof.
  cbv zeta.
  assert (reachable (run [click_startCall; click_startScreenShare] initial)) as Hr
    by (by eexists).
  assert (1 ∈ [0; 1]) as Hin by (right; left).
  split; [exact Hr|]. split; [vm_compute; reflexivity|].
  split; [vm_compute; reflexivity|]. split; [exact Hin|].
  apply (stopScreenShare_orphans_held_stream _ [0; 1] 1 Hr);
    [vm_compute; reflexivity|vm_compute; reflexivity|exact Hin].
Defined.

Lemma replace_video_senders (Q : nat → Prop) (t : nat) (w : World) (p : nat) :
  Q t →
  (∀ e, pcs w !! p = Some e → Forall (λ s, ∀ u, s = Some u → Q u) (senders e)) →
  ∀ e, pcs (exec (replace_video (Some t)) w) !! p = Some e →
       Forall (λ s, ∀ u, s = Some u → Q u) (senders e).
Proof.
  intros Ht Hal. unfold exec, replace_video, bind, find_video_sender, gets.
  destruct (_ ≫= _) as [[q i]|]; cbn; [|done].
  intros e. destruct (decide (q = p)) as [->|Hne].
  - rewrite list_lookup_alter_eq. destruct (pcs w !! p) as [e0|] eqn:He0; [|done].
    cbn. intros [= <-]. cbn. apply Forall_insert; [by apply Hal|].
    by intros u [= <-].
  - rewrite list_lookup_alter_ne by done. apply Hal.
Qed.

(** X12: after [stopScreenShare] the held audio track is the new one, which
    no sender of the current engine carries (only the video sender was
    redirected): [toggleAudio] then flips that track and leaves every track
    attached to the engine as it was. *)
Theorem toggleAudio_after_stopScreenShare_misses_engine
    (w : World) (p : nat) (e : RTCPeerConnection) (t : nat) :
  reachable w → mediaGranted w = true → pcRef w = Some p →
  let n := length (tracks w) in
  let w1 := exec stopScreenShare w in
  let w2 := exec toggleAudio w1 in
  pcs w1 !! p = Some e → Some t ∈ senders e →
  held_track audio w1 = Some n ∧
  tracks w2 !! n = Some (flipped (fresh_track audio UserMedia)) ∧
  t ≠ n ∧
  tracks w2 !! t = tracks w1 !! t.
Proof.
  intros Hr Hg Hp. cbv zeta.
  assert (exec stopScreenShare w = camera_restored w) as ->
    by (unfold exec; by rewrite stopScreenShare_eq).
  intros He Hin.
  destruct (camera_restored_frame w) as (Htr & Hls & _).
  assert (tracks (camera_restored w) !! length (tracks w)
          = Some (fresh_track audio UserMedia)) as Hn.
  { rewrite Htr. unfold camera_tracks. by rewrite list_lookup_middle. }
  assert (held_track audio (camera_restored w) = Some (length (tracks w))) as Hheld.
  { assert (held_track audio (camera_restored w) =
            head (getTracksOfKind (camera_restored w) audio
                    [length (tracks w); S (length (tracks w))])) as ->
      by (unfold held_track; by rewrite Hls).
    unfold getTracksOfKind.
    rewrite filter_cons_True; [done|]. unfold track_has_kind. by rewrite Hn. }
  assert (t ≠ length (tracks w)) as Hne.
  { assert (Forall (λ s, ∀ u, s = Some u → u ≠ length (tracks w)) (senders e)) as Hall.
    { revert He. unfold camera_restored. cbn [pcs set_localVideoRef set_localStreamRef].
      apply (replace_video_senders (λ u, u ≠ length (tracks w))); [lia|].
      intros e0 He0. cbn in He0.
      eapply Forall_impl; [by apply (wf_senders w (reachable_wf w Hr) p)|].
      cbn. intros s0 Hs0 u Hu. specialize (Hs0 u Hu). lia. }
    rewrite Forall_forall in Hall. by apply (Hall (Some t)). }
  assert (exec toggleAudio (camera_restored w) =
          set_tracks (alter flipped (length (tracks w))) (camera_restored w)) as ->
    by (unfold exec, toggleAudio; by rewrite toggleEnabled_eq, Hheld).
  change (tracks (set_tracks ?f ?v)) with (f (tracks v)).
  split; [done|]. split; [by rewrite list_lookup_alter_eq, Hn|]. split; [done|].
  by rewrite list_lookup_alter_ne.
Qed.

Lemma toggleAudio_after_stopScreenShare_misses_engine_witness :
  let w := run [click_startCall; click_startScreenShare] initial in
  let e := mkPc false cs_new [Some 0; Some 4] (Some (mkSdp sdp_offer 0 false)) None [] in
  reachable w ∧ mediaGranted w = true ∧ pcRef w = Some 0 ∧
  let w1 := exec stopScreenShare w in
  let w2 := exec toggleAudio w1 in
  pcs w1 !! 0 = Some e ∧ Some 0 ∈ senders e ∧
  held_track audio w1 = Some 3 ∧
  tracks w2 !! 3 = Some (flipped (fresh_track audio UserMedia)) ∧
  0 ≠ 3 ∧
  tracks w2 !! 0 = tracks w1 !! 0.
Proof.
  cbv zeta.
  assert (reachable (run [click_startCall; click_startScreenShare] initial)) as Hr
    by (by eexists).
  assert (Some 0 ∈ [Some 0; Some 4]) as Hin by left.
  split; [exact Hr|]. split; [vm_compute; reflexivity|].
  split; [vm_compute; reflexivity|].
  split; [vm_compute; reflexivity|]. split; [exact Hin|].
  apply (toggleAudio_after_stopScreenShare_misses_engine _ 0
           (mkPc false cs_new [Some 0; Some 4] (Some (mkSdp sdp_offer 0 false)) None [])
           0 Hr);
    [vm_compute; reflexivity|vm_compute; reflexivity|vm_compute; reflexivity|exact Hin].
Defined.

(** ** One audio and one video sender per engine *)

Lemma track_has_kind_mono (w w' : World) (k : track_kind) (t : nat) :
  tracks_kept w w' → track_has_kind w k t = true → track_has_kind w' k t = true.
Proof.
  intros Hk. unfold track_has_kind. destruct (tracks w !! t) as [tr|] eqn:Ht; [|done].
  destruct (Hk t tr Ht) as (tr' & -> & Hkind & _). by rewrite Hkind.
Qed.

Lemma audio_is_not_video (w : World) (t : nat) :
  track_has_kind w audio t = true → track_has_kind w video t = false.
Proof.
  unfold track_has_kind. destruct (tracks w !! t) as [tr|]; [|done].
  by destruct (kind tr).
Qed.

Lemma senders_shaped_mono (w w' : World) (l : list (option nat)) :
  tracks_kept w w' → senders_shaped w l → senders_shaped w' l.
Proof.
  intros Hk [->|(a & v & -> & Ha & Hv)]; [by left|]. right. exists a, v.
  split; [done|]. split; by eapply track_has_kind_mono.
Qed.

(** Tracks kept, every engine's senders those of an engine of [w], and the
    stream reference kept or dropped. *)
Lemma shaped_ext (w w' : World) :
  tracks_kept w w' →
  (∀ p e', pcs w' !! p = Some e' → ∃ e, pcs w !! p = Some e ∧ senders e' = senders e) →
  (localStreamRef w' = localStreamRef w ∨ localStreamRef w' = None) →
  shaped w → shaped w'.
Proof.
  intros Hk Hpcs Hs [Hst Hse]. split.
  - intros s Hs'. destruct Hs as [Hs|Hs]; [|congruence]. rewrite Hs in Hs'.
    destruct (Hst s Hs') as (a & v & -> & Ha & Hv). exists a, v.
    split; [done|]. split; by eapply track_has_kind_mono.
  - intros p e' He'. destruct (Hpcs p e' He') as (e & He & ->).
    eapply senders_shaped_mono; [done|]. by eapply Hse.
Qed.

Lemma shaped_same_pcs (w w' : World) :
  tracks_kept w w' → pcs w' = pcs w → localStreamRef w' = localStreamRef w →
  shaped w → shaped w'.
Proof.
  intros Hk Hpcs Hs. apply shaped_ext; [done| |by left].
  intros p e'. rewrite Hpcs. by eauto.
Qed.

Lemma alter_keeps_senders (f : RTCPeerConnection → RTCPeerConnection) (q : nat)
    (l : list RTCPeerConnection) (p : nat) (e' : RTCPeerConnection) :
  (∀ e, senders (f e) = senders e) →
  alter f q l !! p = Some e' → ∃ e, l !! p = Some e ∧ senders e' = senders e.
Proof.
  intros Hf. destruct (decide (q = p)) as [->|Hne].
  - rewrite list_lookup_alter_eq. destruct (l !! p) as [e|]; [|done].
    cbn. intros [= <-]. by eauto.
  - rewrite list_lookup_alter_ne by done. by eauto.
Qed.

Lemma shaped_new_engine (w w' : World) (store : list RTCPeerConnection)
    (e : RTCPeerConnection) :
  shaped w →
  (∀ p x, store !! p = Some x → ∃ y, pcs w !! p = Some y ∧ senders x = senders y) →
  pcs w' = store ++ [e] →
  senders e = Some <$> default [] (localStreamRef w) →
  localStreamRef w' = localStreamRef w →
  tracks w' = tracks w →
  shaped w'.
Proof.
  intros [Hst Hse] Hstore Hpcs Hsend Hs Htr.
  assert (tracks_kept w w') as Hk by (by apply tracks_kept_same).
  split.
  - intros s. rewrite Hs. intros Hs'.
    destruct (Hst s Hs') as (a & v & -> & Ha & Hv). exists a, v.
    split; [done|]. split; by eapply track_has_kind_mono.
  - intros p x. rewrite Hpcs. intros Hx. eapply senders_shaped_mono; [done|].
    apply lookup_app_Some in Hx as [Hx|[_ Hx]].
    + destruct (Hstore p x Hx) as (y & Hy & ->). by eapply Hse.
    + apply list_lookup_singleton_Some in Hx as [_ <-]. rewrite Hsend.
      destruct (localStreamRef w) as [s|] eqn:Hls; [|by left].
      destruct (Hst s eq_refl) as (a & v & -> & Ha & Hv). right. by exists a, v.
Qed.

Lemma shaped_replace_video (t : nat) (w : World) :
  track_has_kind w video t = true → shaped w →
  shaped (exec (replace_video (Some t)) w).
Proof.
  intros Ht Hw. pose proof Hw as [Hst Hse].
  unfold exec, replace_video, bind, find_video_sender, gets.
  destruct (pcRef w) as [q|]; cbn; [|done].
  destruct (pcs w !! q) as [e|] eqn:He; cbn; [|done].
  destruct (find_index (sender_has_kind w video) (senders e)) as [i|] eqn:Hi; cbn; [|done].
  split; [done|]. intros p e'. cbn. destruct (decide (q = p)) as [->|Hne].
  - rewrite list_lookup_alter_eq, He. cbn. intros [= <-]. cbn.
    destruct (Hse p e He) as [Hnil|(a & v & Hav & Ha & Hv)].
    + by rewrite Hnil in Hi.
    + rewrite Hav in Hi |- *. cbn in Hi. rewrite (audio_is_not_video w a Ha), Hv in Hi.
      injection Hi as <-. right. by exists a, t.
  - rewrite list_lookup_alter_ne by done. apply Hse.
Qed.

Lemma shaped_camera_acquired (w : World) : shaped w → shaped (camera_acquired w).
Proof.
  intros Hw.
  assert (tracks_kept w (camera_acquired w)) as Hk by apply (tracks_kept_grow camera_tracks w).
  split.
  - intros s [= <-]. exists (length (tracks w)), (S (length (tracks w))).
    split; [done|]. unfold track_has_kind, camera_acquired, camera_tracks; cbn [tracks].
    rewrite list_lookup_middle by done.
    rewrite lookup_app_r by lia.
    by replace (S (length (tracks w)) - length (tracks w)) with 1 by lia.
  - intros p e He. eapply senders_shaped_mono; [done|]. by eapply (shaped_senders w).
Qed.

Lemma shaped_startCamera (w : World) : shaped w → shaped (exec startCamera w).
Proof.
  intros Hw. unfold exec. rewrite startCamera_eq.
  destruct (localStreamRef w); [done|].
  destruct (mediaGranted w); cbn; [by apply shaped_camera_acquired|].
  apply (shaped_same_pcs w); try done. by apply tracks_kept_same.
Qed.

Lemma shaped_screen_shared (w : World) : shaped w → shaped (screen_shared w).
Proof.
  intros Hw. unfold screen_shared.
  set (wa := captured_in DisplayMedia [fresh_track video DisplayMedia] w).
  assert (shaped wa) as Hwa.
  { apply (shaped_same_pcs w); try done.
    apply (tracks_kept_grow [fresh_track video DisplayMedia] w). }
  assert (track_has_kind wa video (length (tracks w)) = true) as Hk.
  { unfold track_has_kind. subst wa; cbn. by rewrite lookup_new_index. }
  pose proof (shaped_replace_video _ _ Hk Hwa) as Hwb.
  set (wb := exec (replace_video (Some (length (tracks w)))) wa) in *. clearbody wb.
  apply (shaped_same_pcs wb); try done.
  etrans; [|by apply (tracks_kept_alter with_onended)]. by apply tracks_kept_same.
Qed.

Lemma shaped_camera_restored (w : World) : shaped w → shaped (camera_restored w).
Proof.
  intros Hw. unfold camera_restored.
  set (wa := captured_in UserMedia camera_tracks w).
  assert (shaped wa) as Hwa.
  { apply (shaped_same_pcs w); try done. apply (tracks_kept_grow camera_tracks w). }
  assert (tracks wa !! length (tracks w) = Some (fresh_track audio UserMedia)) as H0.
  { subst wa; unfold captured_in, camera_tracks; cbn [tracks]. by rewrite list_lookup_middle. }
  assert (tracks wa !! S (length (tracks w)) = Some (fresh_track video UserMedia)) as H1.
  { subst wa; unfold captured_in, camera_tracks; cbn [tracks].
    rewrite lookup_app_r by lia.
    by replace (S (length (tracks w)) - length (tracks w)) with 1 by lia. }
  assert (track_has_kind wa video (S (length (tracks w))) = true) as Hk
    by (unfold track_has_kind; by rewrite H1).
  pose proof (shaped_replace_video _ _ Hk Hwa) as [_ Hse].
  destruct (replace_video_frame (Some (S (length (tracks w)))) wa) as (Htr & _).
  set (wb := exec (replace_video (Some (S (length (tracks w))))) wa) in *. clearbody wb.
  split.
  - intros s [= <-]. exists (length (tracks w)), (S (length (tracks w))).
    split; [done|]. unfold track_has_kind; cbn [tracks set_localVideoRef set_localStreamRef].
    by rewrite Htr, H0, H1.
  - intros p e He. by apply (Hse p).
Qed.

Lemma shaped_stopScreenShare (w : World) : shaped w → shaped (exec stopScreenShare w).
Proof.
  intros Hw. destruct (mediaGranted w) eqn:Hg; unfold exec.
  - rewrite stopScreenShare_eq by done. by apply shaped_camera_restored.
  - unfold stopScreenShare, getUserMedia. unfold bind at 1.
    rewrite capture_media_denied by done.
    apply (shaped_same_pcs w); try done. by apply tracks_kept_same.
Qed.

Lemma shaped_with_pcRef_method (f : RTCPeerConnection → RTCPeerConnection) (w : World) :
  (∀ e, senders (f e) = senders e) →
  shaped w → shaped (exec (with_pcRef (λ pc, pc_method pc f)) w).
Proof.
  intros Hse Hw. unfold exec, with_pcRef, pc_method, bind, gets.
  destruct (pcRef w) as [p|]; [|done].
  destruct (pcs w !! p) as [e|]; [|done].
  destruct (isClosed e); [done|].
  apply (shaped_ext w); [by apply tracks_kept_same| |by left|done].
  intros q e'. by apply alter_keeps_senders.
Qed.

Lemma shaped_reconnectCall (w : World) : shaped w → shaped (exec reconnectCall w).
Proof.
  intros Hw. unfold exec. rewrite reconnectCall_eq.
  destruct (localStreamRef w) eqn:Hs; [|done].
  eapply (shaped_new_engine w _ (close_current w)); try done.
  apply close_current_senders.
Qed.

Lemma shaped_step (w : World) (ev : event) : shaped w → shaped (step w ev).
Proof.
  intros Hw. pose proof (tracks_kept_dispatch ev w) as Hk.
  destruct ev as [| | | | |m|p x|p c|p st|t|b].
  1-8,10-11: unfold step; cbn [dispatch] in Hk |- *.
  - unfold exec. rewrite startCall_eq. pose proof (shaped_startCamera w Hw) as H1.
    unfold exec in H1. destruct (startCamera w) as [[[]|] w1]; [|done].
    by eapply (shaped_new_engine w1 _ (pcs w1)); eauto.
  - apply (shaped_same_pcs w); try done; unfold exec, toggleAudio;
      rewrite toggleEnabled_eq; by destruct (held_track audio w).
  - apply (shaped_same_pcs w); try done; unfold exec, toggleVideo;
      rewrite toggleEnabled_eq; by destruct (held_track video w).
  - unfold exec. destruct (mediaGranted w) eqn:Hg.
    + rewrite startScreenShare_eq by done. by apply shaped_screen_shared.
    + unfold startScreenShare, getDisplayMedia. unfold bind at 1.
      rewrite capture_media_denied by done.
      apply (shaped_same_pcs w); try done. by apply tracks_kept_same.
  - apply (shaped_ext w); [done| |by right; unfold exec; rewrite endCall_eq|done].
    unfold exec. rewrite endCall_eq. cbn [snd pcs]. apply close_current_senders.
  - destruct m as [o|a|c|o|a|].
    + unfold exec. rewrite on_offer_eq. pose proof (shaped_startCamera w Hw) as H1.
      unfold exec in H1. destruct (startCamera w) as [[[]|] w1]; [|done].
      by eapply (shaped_new_engine w1 _ (pcs w1)); eauto.
    + by apply shaped_with_pcRef_method.
    + by apply shaped_with_pcRef_method.
    + unfold exec. rewrite on_reconnect_offer_eq. cbn [snd].
      eapply (shaped_new_engine w _ (close_current w)); try done.
      apply close_current_senders.
    + by apply shaped_with_pcRef_method.
    + apply (shaped_ext w); [done| |by left; unfold exec; rewrite on_call_ended_eq|done].
      unfold exec. rewrite on_call_ended_eq. cbn [snd pcs]. apply close_current_senders.
  - apply (shaped_same_pcs w); try done; unfold exec, bind, gets;
      by destruct (pc_is_open w p).
  - apply (shaped_same_pcs w); try done; unfold exec, bind, gets;
      destruct (pc_is_open w p); try done; by destruct c.
  - unfold exec, end_track. unfold bind at 1. unfold gets at 1. cbn beta iota.
    destruct (tracks w !! t) as [tr|]; [|done].
    destruct (readyState tr); [|done].
    unfold bind at 1. unfold track_stop, update_track, modify. cbn beta iota.
    set (w0 := set_tracks _ w).
    assert (shaped w0) as Hw0.
    { apply (shaped_same_pcs w); try done. by apply (tracks_kept_alter stopped). }
    clearbody w0. destruct (onended tr); [|done].
    by apply shaped_stopScreenShare.
  - apply (shaped_same_pcs w); try done.
  - rewrite connectionstate_event_cases.
    destruct (pc_is_open w p && negb (bool_decide (st = cs_closed))); [|done].
    assert (shaped (exec (report_connectionState p st) w)) as H0.
    { apply (shaped_ext w); [by apply tracks_kept_same| |by left|done].
      intros q e'. by apply alter_keeps_senders. }
    destruct (needs_reconnect st); [|done]. by apply shaped_reconnectCall.
Qed.

Lemma reachable_shaped (w : World) : reachable w → shaped w.
Proof.
  intros [evs ->]. induction evs as [|ev evs IH] using rev_ind.
  - split; [done|]. by intros [|p] e.
  - unfold run. rewrite foldl_snoc. by apply shaped_step.
Qed.

(** X13: every engine of a reachable world has either no sender at all or
    exactly two, the audio and then the video track of a stream: no handler
    ever attaches a second track of a kind, and [replaceTrack] only swaps the
    video one.  So there is at most one outbound video track per engine. *)
Theorem reachable_senders_shape (w : World) (p : nat) (e : RTCPeerConnection) :
  reachable w → pcs w !! p = Some e →
  (senders e = [] ∨
   ∃ a v, senders e = [Some a; Some v] ∧
          track_has_kind w audio a = true ∧ track_has_kind w video v = true) ∧
  length (video_senders w p) ≤ 1.
Proof.
  intros Hr He. pose proof (shaped_senders w (reachable_shaped w Hr) p e He) as Hsh.
  split; [exact Hsh|]. unfold video_senders. rewrite He.
  destruct Hsh as [->|(a & v & -> & Ha & Hv)]; [cbn; lia|].
  rewrite filter_cons_False by (cbn; by rewrite (audio_is_not_video w a Ha)).
  rewrite filter_cons_True by done. cbn. lia.
Qed.

Lemma reachable_senders_shape_witness :
  let w := run [click_startCall; click_startScreenShare; click_startCall] initial in
  let e := mkPc false cs_new [Some 0; Some 2] (Some (mkSdp sdp_offer 0 false)) None [] in
  reachable w ∧ pcs w !! 0 = Some e ∧
  (senders e = [] ∨
   ∃ a v, senders e = [Some a; Some v] ∧
          track_has_kind w audio a = true ∧ track_has_kind w video v = true) ∧
  length (video_senders w 0) ≤ 1.
Proof.
  cbv zeta.
  assert (reachable (run [click_startCall; click_startScreenShare; click_startCall] initial))
    as Hr by (by eexists).
  split; [exact Hr|]. split; [vm_compute; reflexivity|].
  apply (reachable_senders_shape _ 0
           (mkPc false cs_new [Some 0; Some 2] (Some (mkSdp sdp_offer 0 false)) None []) Hr).
  vm_compute; reflexivity.
Defined.

(** ** Who stops tracks *)

#[local] Instance states_kept_preorder : PreOrder states_kept.
Proof.
  split.
  - intros w t tr Ht. by exists tr.
  - intros w1 w2 w3 H12 H23 t tr Ht.
    destruct (H12 t tr Ht) as (tr2 & Ht2 & He2).
    destruct (H23 t tr2 Ht2) as (tr3 & Ht3 & He3).
    exists tr3. split; [done|]. congruence.
Qed.

Lemma states_kept_same (w w' : World) : tracks w' = tracks w → states_kept w w'.
Proof. intros Heq t tr Ht. exists tr. by rewrite Heq. Qed.

Lemma states_kept_grow (ts : list MediaStreamTrack) (w : World) :
  states_kept w (set_tracks (λ l, l ++ ts) w).
Proof. intros t tr Ht. exists tr. cbn. by rewrite (lookup_app_l_Some _ _ _ _ Ht). Qed.

Lemma states_kept_alter (f : MediaStreamTrack → MediaStreamTrack) (t : nat) (w : World) :
  (∀ tr, readyState (f tr) = readyState tr) →
  states_kept w (set_tracks (alter f t) w).
Proof.
  intros Hf u tr Hu. cbn. destruct (decide (t = u)) as [->|Hne].
  - exists (f tr). by rewrite list_lookup_alter_eq, Hu.
  - exists tr. by rewrite list_lookup_alter_ne.
Qed.

(** X14: apart from [endCall] and the browser ending a track, no event changes
    the ready state of any track: in particular [stopScreenShare], a remote
    [call-ended], a reconnection and a replaced engine stop nothing. *)
Theorem only_endCall_stops_tracks
    (w : World) (ev : event) (t : nat) (tr : MediaStreamTrack) :
  stops_tracks ev = false →
  tracks w !! t = Some tr →
  ∃ tr', tracks (step w ev) !! t = Some tr' ∧ readyState tr' = readyState tr.
Proof.
  intros Hev. revert t tr. change (states_kept w (snd (dispatch ev w))). revert w.
  change (moves states_kept (dispatch ev)).
  destruct ev as [| | | | |m| | | | |]; try done; try destruct m.
  all: repeat (progress (unfold_component; repeat moves_step)).
  all: try (by apply states_kept_same).
  all: try apply states_kept_grow.
  all: by apply states_kept_alter.
Qed.

Lemma only_endCall_stops_tracks_witness :
  let w := run [click_startCall; click_startScreenShare] initial in
  stops_tracks (socket_receive call_ended) = false ∧
  tracks w !! 2 = Some (mkTrack video true live DisplayMedia true) ∧
  ∃ tr', tracks (step w (socket_receive call_ended)) !! 2 = Some tr' ∧
         readyState tr' = readyState (mkTrack video true live DisplayMedia true).
Proof.
  cbv zeta. split; [reflexivity|]. split; [vm_compute; reflexivity|].
  apply only_endCall_stops_tracks; [reflexivity|vm_compute; reflexivity].
Defined.

Lemma screen_shared_frame (w : World) :
  tracks (screen_shared w) = tracks w ++ [with_onended (fresh_track video DisplayMedia)] ∧
  localStreamRef (screen_shared w) = localStreamRef w.
Proof.
  unfold screen_shared.
  destruct (replace_video_frame (Some (length (tracks w)))
              (captured_in DisplayMedia [fresh_track video DisplayMedia] w))
    as (Htr & _ & Hls & _).
  cbn. rewrite Htr, Hls. split; [|done]. apply alter_new_index.
Qed.

(** X15: [endCall] stops the tracks of the held stream only.  A screen track
    obtained by [startScreenShare] is never part of it, so ending the call
    while sharing leaves the screen track live. *)
Theorem endCall_leaves_screen_track_live (w : World) :
  reachable w → mediaGranted w = true →
  let n := length (tracks w) in
  let w1 := step w click_startScreenShare in
  tracks w1 !! n = Some (mkTrack video true live DisplayMedia true) ∧
  tracks (exec endCall w1) !! n = Some (mkTrack video true live DisplayMedia true) ∧
  localStreamRef (exec endCall w1) = None.
Proof.
  intros Hr Hg. cbv zeta.
  assert (step w click_startScreenShare = screen_shared w) as ->.
  { unfold step, exec, dispatch. by rewrite startScreenShare_eq. }
  destruct (screen_shared_frame w) as (Htr & Hls).
  assert (tracks (screen_shared w) !! length (tracks w)
          = Some (mkTrack video true live DisplayMedia true)) as Hn
    by (rewrite Htr; apply lookup_new_index).
  split; [done|]. unfold exec. rewrite endCall_eq. cbn [snd tracks localStreamRef].
  split; [|done]. rewrite stop_all_elsewhere; [done|]. rewrite Hls.
  destruct (localStreamRef w) as [s|] eqn:Hs; cbn; [|apply not_elem_of_nil].
  pose proof (wf_stream w (reachable_wf w Hr) s Hs) as Hall.
  rewrite Forall_forall in Hall. intros Hin. specialize (Hall _ Hin). lia.
Qed.

Lemma endCall_leaves_screen_track_live_witness :
  let w := run [click_startCall] initial in
  reachable w ∧ mediaGranted w = true ∧
  let w1 := step w click_startScreenShare in
  tracks w1 !! 2 = Some (mkTrack video true live DisplayMedia true) ∧
  tracks (exec endCall w1) !! 2 = Some (mkTrack video true live DisplayMedia true) ∧
  localStreamRef (exec endCall w1) = None.
Proof.
  cbv zeta.
  assert (reachable (run [click_startCall] initial)) as Hr by (by eexists).
  split; [exact Hr|]. split; [vm_compute; reflexivity|].
  apply (endCall_leaves_screen_track_live _ Hr). vm_compute; reflexivity.
Defined.

(** ** Engines that are no longer current *)

(** X16: the callbacks of an engine do not check that it is still the current
    one.  When an open engine other than the current one reports [failed] or
    [disconnected] while a stream is held, [reconnectCall] closes the current
    engine and replaces it, and the engine that failed stays open; and its
    candidates are still sent and its remote stream still shown. *)
Theorem stale_engine_callbacks_act_on_current
    (w : World) (s : MediaStream) (p q : nat) (st : connection_state) (c x : nat) :
  localStreamRef w = Some s →
  pcRef w = Some q → p ≠ q →
  pc_is_open w p = true → pc_is_open w q = true →
  needs_reconnect st = true →
  let w' := step w (pc_connectionstate p st) in
  pc_is_open w' p = true ∧ pc_is_open w' q = false ∧
  pcRef w' = Some (length (pcs w)) ∧
  emitted w' = emitted w ++ [reconnect_offer (mkSdp sdp_offer (length (pcs w)) true)] ∧
  emitted (step w (pc_icecandidate p (Some c))) = emitted w ++ [ice_candidate c] ∧
  remoteVideoRef (step w (pc_track p x)) =
    show (Some (RemoteStream x)) (remoteVideoRef w).
Proof.
  intros Hs Hq Hne Hp Hqo Hst. cbv zeta.
  rewrite connectionstate_event_eq, Hp by done.
  set (w0 := exec (report_connectionState p st) w).
  assert (localStreamRef w0 = Some s) as Hs0 by done.
  assert (pcRef w0 = Some q) as Hq0 by done.
  assert (emitted w0 = emitted w) as Hem0 by done.
  assert (length (pcs w0) = length (pcs w)) as Hlen by apply length_alter.
  assert (pc_is_open w0 p = true ∧ pc_is_open w0 q = true) as [Hp0 Hqo0].
  { pose proof (same_engines_alter
                  (λ e, mkPc (isClosed e) st (senders e) (localDescription e)
                             (remoteDescription e) (candidates e)) p w
                  (λ _, eq_refl)) as [_ Ho].
    split; [by rewrite <-Hp, <-(Ho p)|by rewrite <-Hqo, <-(Ho q)]. }
  clearbody w0. unfold exec. rewrite reconnectCall_eq, Hs0. cbn [snd].
  unfold pc_is_open in *. unfold reconnected; cbn [pcs pcRef emitted].
  unfold close_current. rewrite Hq0.
  destruct (pcs w0 !! p) as [ep|] eqn:Hep; [|done].
  destruct (pcs w0 !! q) as [eq|] eqn:Heq; [|done].
  assert (p < length (pcs w0)) as Hplt by (by eapply lookup_lt_Some).
  assert (q < length (pcs w0)) as Hqlt by (by eapply lookup_lt_Some).
  rewrite !lookup_app_l by (by rewrite length_alter).
  rewrite list_lookup_alter_ne by done. rewrite list_lookup_alter_eq, Hep, Heq. cbn.
  split; [done|]. split; [done|]. split; [by rewrite Hlen|].
  split; [unfold restart_offer; by rewrite Hem0, Hlen|].
  subst. unfold step, exec, dispatch, bind, gets, pc_is_open.
  split; by destruct (pcs w !! p) as [e|]; [destruct (isClosed e)|].
Qed.

Lemma stale_engine_callbacks_act_on_current_witness :
  let w := run [click_startCall; click_startCall] initial in
  localStreamRef w = Some [0; 1] ∧ pcRef w = Some 1 ∧ 0 ≠ 1 ∧
  pc_is_open w 0 = true ∧ pc_is_open w 1 = true ∧
  needs_reconnect cs_failed = true ∧
  let w' := step w (pc_connectionstate 0 cs_failed) in
  pc_is_open w' 0 = true ∧ pc_is_open w' 1 = false ∧
  pcRef w' = Some (length (pcs w)) ∧
  emitted w' = emitted w ++ [reconnect_offer (mkSdp sdp_offer (length (pcs w)) true)] ∧
  emitted (step w (pc_icecandidate 0 (Some 7))) = emitted w ++ [ice_candidate 7] ∧
  remoteVideoRef (step w (pc_track 0 9)) =
    show (Some (RemoteStream 9)) (remoteVideoRef w).
Proof.
  cbv zeta.
  split; [vm_compute; reflexivity|]. split; [vm_compute; reflexivity|].
  split; [lia|]. split; [vm_compute; reflexivity|]. split; [vm_compute; reflexivity|].
  split; [reflexivity|].
  apply (stale_engine_callbacks_act_on_current
           (run [click_startCall; click_startCall] initial) [0; 1] 0 1 cs_failed 7 9);
    first [ lia | vm_compute; reflexivity ].
Defined.

(** ** Mounting and unmounting *)



(** ** Two clicks on Start Call before the capture resolves *)

(** The two halves, run back to back, are [startCall]. *)
Lemma startCall_split (w : World) :
  startCall w =
    match startCall_until_await w with
    | (Ok (Some stream), w1) => startCall_after_await stream w1
    | (Ok None, w1) => (Ok tt, w1)
    | (Throw, w1) => (Throw, w1)
    end.
Proof.
  change (startCall w) with (bind startCamera (λ _, startCall_after_camera) w).
  unfold bind at 1. rewrite startCamera_eq.
  unfold startCall_until_await, startCamera_until_await, getUserMedia.
  unfold bind at 1 2. unfold gets at 1.
  destruct (localStreamRef w) as [s|] eqn:Hs.
  - unfold ret at 1. unfold bind at 1.
    by destruct (startCall_after_camera w) as [[[]|] w1].
  - unfold bind at 1. destruct (mediaGranted w) eqn:Hg.
    + rewrite capture_media_granted by done. unfold ret at 1.
      unfold startCall_after_await, startCamera_after_await, show_local, bind, modify.
      cbn [length captured want_audio want_video app seq fst snd].
      by destruct w.
    + by rewrite capture_media_denied.
Qed.

(** A granted [startCall] with no stream held does acquire the camera: one
    request, two new tracks, which become the held stream. *)
Lemma startCall_acquires_camera (w : World) :
  localStreamRef w = None → mediaGranted w = true →
  let n := length (tracks w) in
  let w' := step w click_startCall in
  requests w' = requests w ++ [UserMedia] ∧
  tracks w' = tracks w ++ camera_tracks ∧
  localStreamRef w' = Some [n; S n].
Proof.
  intros Hs Hg. cbv zeta. unfold step, exec, dispatch.
  by rewrite startCall_eq, startCamera_eq, Hs, Hg.
Qed.

(** C6, at the failing input: Start Call is clicked twice before the first
    capture has resolved.  The guard of [startCamera] is passed both times,
    [localStreamRef] being assigned only after the [await]: the camera is
    requested and acquired twice (four tracks), the first stream is replaced
    by the second without being stopped, and two engines are open.  The same
    two clicks, the second after the first call has completed, request the
    camera once and acquire two tracks. *)
Theorem overlapping_startCall_acquires_twice :
  let w1 := exec startCall_until_await initial in
  let w2 := exec startCall_until_await w1 in
  let w3 := exec (startCall_after_await [0; 1]) w2 in
  let w4 := exec (startCall_after_await [2; 3]) w3 in
  fst (startCall_until_await initial) = Ok (Some [0; 1]) ∧
  localStreamRef w1 = None ∧
  fst (startCall_until_await w1) = Ok (Some [2; 3]) ∧
  requests w4 = [UserMedia; UserMedia] ∧
  tracks w4 = camera_tracks ++ camera_tracks ∧
  localStreamRef w3 = Some [0; 1] ∧
  localStreamRef w4 = Some [2; 3] ∧
  live_engines w4 = [0; 1] ∧
  requests (run [click_startCall; click_startCall] initial) = [UserMedia] ∧
  tracks (run [click_startCall; click_startCall] initial) = camera_tracks.
Proof. by vm_compute. Qed.
